(** * The in-process CloudEvents broker of reverted/broker

    A shallow embedding of [Broker] (package broker: NewBroker, Subscribe,
    Publish, SubscribeFunc, Shutdown) and of [CloudEventForwarder].

    The broker is concurrent Go code.  Every goroutine is a program counter
    ([pc]) over one shared [State]; [exec] performs the next atomic action of
    a goroutine (an atomic load or store, a mutex operation, a WaitGroup
    operation, a channel operation, or a [go] statement).  A method call that
    is not interleaved with anything else is [call]: the goroutine is stepped
    until it returns.  A [World] holds the shared state and the pool of
    goroutines, and [play] runs a schedule over it. *)

From stdpp Require Import gmap strings list.

(** ** Data *)

(** cloudevents.Event: the broker only reads [Type()]; the other attributes
    travel with the value. *)
Record Event := mkEvent {
  ID : string;
  Type_ : string;
  Source : string;
  Data : string
}.

#[global] Instance Event_eq_dec : EqDecision Event.
Proof. solve_decision. Defined.

(** A Go channel object: capacity, buffered values (oldest first), closed. *)
Record Chan := mkChan {
  cap : nat;
  buf : list Event;
  closed : bool
}.

(** A value of type [chan cloudevents.Event] is a reference to a channel
    object: its index in the heap of channels. *)
Abbreviation chan := nat (only parsing).

(** sync.RWMutex: one writer or any number of readers. *)
Record RWMutex := mkRWMutex {
  writer : bool;
  readers : nat
}.

(** The callback handed to SubscribeFunc is opaque to the broker; it is
    identified by a number and every invocation is recorded. *)
Abbreviation callback := nat (only parsing).

(** type Broker struct: the registry, its lock, the WaitGroup counter and the
    atomic flag. *)
Record Broker := mkBroker {
  subscribers : gmap string (list chan);
  allSubscribers : list chan;
  mu : RWMutex;
  wg : nat;
  shuttingDown : bool
}.

(** The shared memory: the broker, the channel objects made so far, and the
    record of callback invocations [f(event)] in the order they happened. *)
Record State := mkState {
  eb : Broker;
  chans : list Chan;
  calls : list (callback * Event)
}.

(** func NewBroker: an empty map, no wildcard subscriber, zero values. *)
Definition NewBroker : State :=
  mkState (mkBroker ∅ [] (mkRWMutex false 0) 0 false) [] [].

(** ** Field updates *)

Definition set_subscribers (m : gmap string (list chan)) (s : State) : State :=
  let b := eb s in
  mkState (mkBroker m (allSubscribers b) (mu b) (wg b) (shuttingDown b))
          (chans s) (calls s).

Definition set_allSubscribers (l : list chan) (s : State) : State :=
  let b := eb s in
  mkState (mkBroker (subscribers b) l (mu b) (wg b) (shuttingDown b))
          (chans s) (calls s).

Definition set_mu (m : RWMutex) (s : State) : State :=
  let b := eb s in
  mkState (mkBroker (subscribers b) (allSubscribers b) m (wg b) (shuttingDown b))
          (chans s) (calls s).

Definition set_wg (n : nat) (s : State) : State :=
  let b := eb s in
  mkState (mkBroker (subscribers b) (allSubscribers b) (mu b) n (shuttingDown b))
          (chans s) (calls s).

Definition set_shuttingDown (v : bool) (s : State) : State :=
  let b := eb s in
  mkState (mkBroker (subscribers b) (allSubscribers b) (mu b) (wg b) v)
          (chans s) (calls s).

Definition set_chans (h : list Chan) (s : State) : State :=
  mkState (eb s) h (calls s).

Definition set_calls (l : list (callback * Event)) (s : State) : State :=
  mkState (eb s) (chans s) l.

(** [make(chan cloudevents.Event, n)]: a new channel object; its reference is
    the next free index. *)
Definition make (n : nat) (s : State) : chan * State :=
  (length (chans s), set_chans (chans s ++ [mkChan n [] false]) s).

(** [eb.subscribers[k]]: a missing key reads as the nil slice. *)
Definition typed (s : State) (k : string) : list chan :=
  default [] (subscribers (eb s) !! k).

(** The channels visited by [for _, subs := range eb.subscribers { for _, ch
    := range subs ... } ]: Go leaves the order of the keys unspecified; the
    model takes the order of [map_to_list]. *)
Definition typed_all (s : State) : list chan :=
  concat (map snd (map_to_list (subscribers (eb s)))).

(** ** Channel operations *)

(** A receive [v, ok := <-ch]. *)
Inductive recv_result :=
| Received (event : Event) (rest : list Event)
| EndOfStream        (* closed and drained: zero value, ok = false, at once *)
| WouldBlock.        (* open and empty: the receiver waits *)

Definition recv (c : Chan) : recv_result :=
  match buf c with
  | event :: rest => Received event rest
  | [] => if closed c then EndOfStream else WouldBlock
  end.

(** ** Program counters *)

Inductive pc :=
(* func (eb *Broker) Subscribe(eventType string) *)
| Subscribe_load (eventType : string)      (* if eb.shuttingDown.Load() *)
| Subscribe_lock (eventType : string)      (* eb.mu.Lock() *)
| Subscribe_register (eventType : string)  (* ch := make(..., 10); append *)
| Subscribe_unlock (ch : chan)             (* deferred eb.mu.Unlock() *)
| Return (ch : chan)                       (* Subscribe has returned ch *)
(* func (eb *Broker) Publish(event cloudevents.Event) *)
| Publish_load (event : Event)             (* if eb.shuttingDown.Load() *)
| Publish_rlock (event : Event)            (* eb.mu.RLock() *)
| Publish_typed (event : Event) (rest : list chan)  (* first range loop *)
| Publish_all (event : Event) (rest : list chan)    (* second range loop *)
| Publish_runlock                          (* deferred eb.mu.RUnlock() *)
(* go func() { defer eb.wg.Done(); subs <- event }() *)
| Send (subs : chan) (event : Event)       (* subs <- event *)
| Send_done                                (* deferred eb.wg.Done() *)
(* func (eb *Broker) SubscribeFunc(eventType string, f func(Event)) *)
| SubscribeFunc_call (callee : pc) (f : callback)  (* ch := eb.Subscribe(..) *)
| Range (ch : chan) (f : callback)         (* for event := range ch *)
| Call (f : callback) (event : Event) (ch : chan)  (* f(event) *)
(* func (eb *Broker) Shutdown() *)
| Shutdown_store                           (* eb.shuttingDown.Store(true) *)
| Shutdown_wait                            (* eb.wg.Wait() *)
| Shutdown_lock                            (* eb.mu.Lock() *)
| Shutdown_typed (rest : list chan)        (* close typed subscriptions *)
| Shutdown_all (rest : list chan)          (* close wildcard subscriptions *)
| Shutdown_unlock                          (* deferred eb.mu.Unlock() *)
| Done.                                    (* the function has returned *)

(** What one atomic action of a goroutine does. *)
Inductive result :=
| Next (s : State) (p : pc) (spawned : list pc)
| Blocked                  (* the goroutine waits *)
| Panic (msg : string)     (* a Go panic or fatal error: the process dies *)
| Halted.                  (* the goroutine has finished *)

(** [close(ch)] *)
Definition close (ch : chan) (s : State) : string + State :=
  match chans s !! ch with
  | None => inl "close of nil channel"
  | Some c =>
      if closed c then inl "close of closed channel"
      else inr (set_chans (<[ch := mkChan (cap c) (buf c) true]> (chans s)) s)
  end.

(** Lines 118-124 of Subscribe, under the write lock: a buffered channel is
    made and appended to the wildcard list or to the list of its type. *)
Definition register (eventType : string) (s : State) : chan * State :=
  let '(ch, s1) := make 10 s in
  if bool_decide (eventType = "*"%string) then
    (ch, set_allSubscribers (allSubscribers (eb s1) ++ [ch]) s1)
  else
    (ch, set_subscribers
           (<[eventType := typed s1 eventType ++ [ch]]> (subscribers (eb s1))) s1).

(** One atomic action.  A channel reference outside the heap behaves as the
    nil channel (send and receive wait forever, close panics); no run of the
    broker produces one.  A send on an open channel of capacity 0 would need
    a waiting receiver; the only such channels here are born closed. *)
Fixpoint exec (s : State) (p : pc) : result :=
  match p with
  (* Subscribe *)
  | Subscribe_load eventType =>
      if shuttingDown (eb s) then
        (* Return a closed channel: ch := make(chan Event); close(ch) *)
        let '(ch, s1) := make 0 s in
        match close ch s1 with
        | inl msg => Panic msg
        | inr s2 => Next s2 (Return ch) []
        end
      else Next s (Subscribe_lock eventType) []
  | Subscribe_lock eventType =>
      if writer (mu (eb s)) || negb (Nat.eqb (readers (mu (eb s))) 0) then Blocked
      else Next (set_mu (mkRWMutex true 0) s) (Subscribe_register eventType) []
  | Subscribe_register eventType =>
      let '(ch, s') := register eventType s in
      Next s' (Subscribe_unlock ch) []
  | Subscribe_unlock ch =>
      if writer (mu (eb s)) then
        Next (set_mu (mkRWMutex false (readers (mu (eb s)))) s) (Return ch) []
      else Panic "sync: Unlock of unlocked RWMutex"
  | Return _ => Halted
  (* Publish *)
  | Publish_load event =>
      if shuttingDown (eb s) then Next s Done []
      else Next s (Publish_rlock event) []
  | Publish_rlock event =>
      if writer (mu (eb s)) then Blocked
      else Next (set_mu (mkRWMutex false (S (readers (mu (eb s))))) s)
                (Publish_typed event (typed s (Type_ event))) []
  | Publish_typed event (subs :: rest) =>
      (* eb.wg.Add(1); go func() {...}(): the closure sends on the channel
         of its own iteration *)
      Next (set_wg (S (wg (eb s))) s) (Publish_typed event rest) [Send subs event]
  | Publish_typed event [] =>
      Next s (Publish_all event (allSubscribers (eb s))) []
  | Publish_all event (subs :: rest) =>
      Next (set_wg (S (wg (eb s))) s) (Publish_all event rest) [Send subs event]
  | Publish_all event [] => Next s Publish_runlock []
  | Publish_runlock =>
      match readers (mu (eb s)) with
      | 0 => Panic "sync: RUnlock of unlocked RWMutex"
      | S n => Next (set_mu (mkRWMutex (writer (mu (eb s))) n) s) Done []
      end
  (* the delivery goroutine *)
  | Send subs event =>
      match chans s !! subs with
      | None => Blocked
      | Some c =>
          if closed c then Panic "send on closed channel"
          else if Nat.ltb (length (buf c)) (cap c) then
            Next (set_chans (<[subs := mkChan (cap c) (buf c ++ [event]) false]> (chans s)) s)
                 Send_done []
          else Blocked
      end
  | Send_done =>
      match wg (eb s) with
      | 0 => Panic "sync: negative WaitGroup counter"
      | S n => Next (set_wg n s) Done []
      end
  (* SubscribeFunc *)
  | SubscribeFunc_call callee f =>
      match callee with
      | Return ch => Next s Done [Range ch f]      (* go func() {...}() *)
      | _ =>
          match exec s callee with
          | Next s' callee' spawned => Next s' (SubscribeFunc_call callee' f) spawned
          | r => r
          end
      end
  | Range ch f =>
      match chans s !! ch with
      | None => Blocked
      | Some c =>
          match recv c with
          | Received event rest =>
              Next (set_chans (<[ch := mkChan (cap c) rest (closed c)]> (chans s)) s)
                   (Call f event ch) []
          | EndOfStream => Next s Done []
          | WouldBlock => Blocked
          end
      end
  | Call f event ch => Next (set_calls (calls s ++ [(f, event)]) s) (Range ch f) []
  (* Shutdown *)
  | Shutdown_store => Next (set_shuttingDown true s) Shutdown_wait []
  | Shutdown_wait =>
      match wg (eb s) with
      | 0 => Next s Shutdown_lock []
      | S _ => Blocked
      end
  | Shutdown_lock =>
      if writer (mu (eb s)) || negb (Nat.eqb (readers (mu (eb s))) 0) then Blocked
      else Next (set_mu (mkRWMutex true 0) s) (Shutdown_typed (typed_all s)) []
  | Shutdown_typed (ch :: rest) =>
      match close ch s with
      | inl msg => Panic msg
      | inr s' => Next s' (Shutdown_typed rest) []
      end
  | Shutdown_typed [] => Next s (Shutdown_all (allSubscribers (eb s))) []
  | Shutdown_all (ch :: rest) =>
      match close ch s with
      | inl msg => Panic msg
      | inr s' => Next s' (Shutdown_all rest) []
      end
  | Shutdown_all [] => Next s Shutdown_unlock []
  | Shutdown_unlock =>
      if writer (mu (eb s)) then
        Next (set_mu (mkRWMutex false (readers (mu (eb s)))) s) Done []
      else Panic "sync: Unlock of unlocked RWMutex"
  | Done => Halted
  end.

(** ** A call that nothing interleaves with *)

(** How stepping one goroutine ends. *)
Inductive outcome :=
| Returned (s : State) (p : pc) (spawned : list pc)  (* finished at [p] *)
| Stuck (s : State) (p : pc) (spawned : list pc)     (* waits at [p] *)
| Panicked (msg : string)
| Timeout.                                           (* fuel exhausted *)

Fixpoint run (fuel : nat) (s : State) (p : pc) (acc : list pc) : outcome :=
  match exec s p with
  | Halted => Returned s p acc
  | Blocked => Stuck s p acc
  | Panic msg => Panicked msg
  | Next s' p' spawned =>
      match fuel with
      | 0 => Timeout
      | S n => run n s' p' (acc ++ spawned)
      end
  end.

Definition buf_of (s : State) (ch : chan) : list Event :=
  match chans s !! ch with
  | Some c => buf c
  | None => []
  end.

(** A bound on the number of actions a goroutine at [p] still performs. *)
Fixpoint weight (s : State) (p : pc) : nat :=
  match p with
  | Subscribe_load _ => 4
  | Subscribe_lock _ => 3
  | Subscribe_register _ => 2
  | Subscribe_unlock _ => 1
  | Return _ => 0
  | Publish_load event =>
      5 + length (typed s (Type_ event)) + length (allSubscribers (eb s))
  | Publish_rlock event =>
      4 + length (typed s (Type_ event)) + length (allSubscribers (eb s))
  | Publish_typed _ rest => 3 + length rest + length (allSubscribers (eb s))
  | Publish_all _ rest => 2 + length rest
  | Publish_runlock => 1
  | Send _ _ => 2
  | Send_done => 1
  | SubscribeFunc_call callee _ => S (weight s callee)
  | Range ch _ => 1 + 2 * length (buf_of s ch)
  | Call _ _ ch => 2 + 2 * length (buf_of s ch)
  | Shutdown_store => 6 + length (typed_all s) + length (allSubscribers (eb s))
  | Shutdown_wait => 5 + length (typed_all s) + length (allSubscribers (eb s))
  | Shutdown_lock => 4 + length (typed_all s) + length (allSubscribers (eb s))
  | Shutdown_typed rest => 3 + length rest + length (allSubscribers (eb s))
  | Shutdown_all rest => 2 + length rest
  | Shutdown_unlock => 1
  | Done => 0
  end.

Definition call (s : State) (p : pc) : outcome := run (weight s p) s p [].

(** The four methods, called from the state [s]. *)
Definition Subscribe (eventType : string) (s : State) : outcome :=
  call s (Subscribe_load eventType).

Definition Publish (event : Event) (s : State) : outcome :=
  call s (Publish_load event).

Definition SubscribeFunc (eventType : string) (f : callback) (s : State) : outcome :=
  call s (SubscribeFunc_call (Subscribe_load eventType) f).

Definition Shutdown (s : State) : outcome :=
  call s Shutdown_store.

(** ** Goroutines running together *)

Record World := mkWorld {
  st : State;
  pool : list pc;             (* the goroutines, by number *)
  crashed : option string     (* the panic that ended the process *)
}.

Definition NewWorld : World := mkWorld NewBroker [] None.

Inductive method :=
| M_Subscribe (eventType : string)
| M_Publish (event : Event)
| M_SubscribeFunc (eventType : string) (f : callback)
| M_Shutdown.

Definition entry (m : method) : pc :=
  match m with
  | M_Subscribe eventType => Subscribe_load eventType
  | M_Publish event => Publish_load event
  | M_SubscribeFunc eventType f => SubscribeFunc_call (Subscribe_load eventType) f
  | M_Shutdown => Shutdown_store
  end.

(** Goroutine [i] performs its next action. *)
Definition sched (i : nat) (w : World) : option World :=
  match crashed w with
  | Some _ => None
  | None =>
      match pool w !! i with
      | None => None
      | Some p =>
          match exec (st w) p with
          | Next s' p' spawned => Some (mkWorld s' (<[i := p']> (pool w) ++ spawned) None)
          | Panic msg => Some (mkWorld (st w) (pool w) (Some msg))
          | Blocked | Halted => None
          end
      end
  end.

(** A caller runs the method [m] from entry to return with no other goroutine
    in between; the goroutines it started join the pool. *)
Definition invoke (m : method) (w : World) : option World :=
  match crashed w with
  | Some _ => None
  | None =>
      match call (st w) (entry m) with
      | Returned s' _ spawned => Some (mkWorld s' (pool w ++ spawned) None)
      | Panicked msg => Some (mkWorld (st w) (pool w) (Some msg))
      | Stuck _ _ _ | Timeout => None
      end
  end.

(** A caller enters the method [m] as a new goroutine of the pool, to be
    stepped by [sched] among the others. *)
Definition start (m : method) (w : World) : option World :=
  match crashed w with
  | Some _ => None
  | None => Some (mkWorld (st w) (pool w ++ [entry m]) None)
  end.

Inductive action :=
| Invoke (m : method)
| Start (m : method)
| Step (i : nat).

Definition act (a : action) (w : World) : option World :=
  match a with
  | Invoke m => invoke m w
  | Start m => start m w
  | Step i => sched i w
  end.

Fixpoint play (acts : list action) (w : World) : option World :=
  match acts with
  | [] => Some w
  | a :: rest =>
      match act a w with
      | Some w' => play rest w'
      | None => None
      end
  end.

(** The worlds in which method calls do not overlap one another: every call
    runs from entry to return, in between the goroutines take steps in any
    order. *)
Inductive reachable : World → Prop :=
| reach_init : reachable NewWorld
| reach_invoke m w w' : reachable w → invoke m w = Some w' → reachable w'
| reach_sched i w w' : reachable w → sched i w = Some w' → reachable w'.

Definition sequential (a : action) : bool :=
  match a with
  | Start _ => false
  | _ => true
  end.

(** ** CloudEventForwarder *)

(** context.Context, as far as this code builds one. *)
Inductive Context :=
| Background.

(** type CloudEventSender func(ctx context.Context, event Event): what a
    sender does is a change of the surrounding world [W]. *)
Definition CloudEventSender (W : Type) : Type := Context → Event → W → W.

(** func CloudEventForwarder(send CloudEventSender) func(e Event) *)
Definition CloudEventForwarder {W : Type} (send : CloudEventSender W)
    : Event → W → W :=
  fun e => send Background e.

(** The sender of the test: it records every call it gets. *)
Definition mockSender : CloudEventSender (list (Context * Event)) :=
  fun ctx event got => got ++ [(ctx, event)].

(** ** Notions used in the properties *)

(** [evals s p acc r]: stepping the goroutine at [p] from [s] ends in [r]. *)
Inductive evals : State → pc → list pc → outcome → Prop :=
| evals_halt s p acc :
    exec s p = Halted → evals s p acc (Returned s p acc)
| evals_block s p acc :
    exec s p = Blocked → evals s p acc (Stuck s p acc)
| evals_panic s p acc msg :
    exec s p = Panic msg → evals s p acc (Panicked msg)
| evals_next s p acc s' p' spawned r :
    exec s p = Next s' p' spawned →
    evals s' p' (acc ++ spawned) r →
    evals s p acc r.

(** No call holds the registry lock. *)
Definition idle (s : State) : Prop := mu (eb s) = mkRWMutex false 0.

(** The channels an event is dispatched to, in dispatch order. *)
Definition targets (s : State) (event : Event) : list chan :=
  typed s (Type_ event) ++ allSubscribers (eb s).

(** [close] over a list of channels, stopping at the first panic. *)
Fixpoint close_list (l : list chan) (s : State) : string + State :=
  match l with
  | [] => inr s
  | ch :: rest =>
      match close ch s with
      | inl msg => inl msg
      | inr s' => close_list rest s'
      end
  end.

(** The consumer loop of SubscribeFunc on the channel object [c] of [ch]:
    every buffered event is received and handed to [f], oldest first. *)
Definition consume (ch : chan) (f : callback) (c : Chan) (s : State) : State :=
  set_calls (calls s ++ map (pair f) (buf c))
            (set_chans (<[ch := mkChan (cap c) [] (closed c)]> (chans s)) s).

(** Every registered channel is registered once, under one key, and is a
    channel object of the heap; the key ["*"] is never used in the map. *)
Record wf (s : State) : Prop := mk_wf {
  wf_typed_nodup : ∀ k l, subscribers (eb s) !! k = Some l → NoDup l;
  wf_typed_bound : ∀ k l c,
    subscribers (eb s) !! k = Some l → c ∈ l → c < length (chans s);
  wf_typed_disj : ∀ k1 k2 l1 l2 c,
    subscribers (eb s) !! k1 = Some l1 → subscribers (eb s) !! k2 = Some l2 →
    c ∈ l1 → c ∈ l2 → k1 = k2;
  wf_all_nodup : NoDup (allSubscribers (eb s));
  wf_all_bound : ∀ c, c ∈ allSubscribers (eb s) → c < length (chans s);
  wf_typed_all : ∀ k l c,
    subscribers (eb s) !! k = Some l → c ∈ l → c ∉ allSubscribers (eb s);
  wf_star : subscribers (eb s) !! "*"%string = None
}.

(** The step left the registry alone and dropped no channel object. *)
Definition same_registry (s s' : State) : Prop :=
  subscribers (eb s') = subscribers (eb s) ∧
  allSubscribers (eb s') = allSubscribers (eb s) ∧
  length (chans s) ≤ length (chans s').

(** The goroutines the broker starts: deliveries and consumer loops. *)
Definition goroutine (p : pc) : bool :=
  match p with
  | Send _ _ | Send_done | Range _ _ | Call _ _ _ | Done => true
  | _ => false
  end.

(** What holds of a world in which no method call is under way. *)
Record quiet (w : World) : Prop := mk_quiet {
  quiet_wf : wf (st w);
  quiet_idle : idle (st w);
  quiet_pool : Forall (λ p, goroutine p = true) (pool w)
}.

(** A sender that, besides doing what [send] does, keeps the list of the
    calls it received. *)
Definition traced {W : Type} (send : CloudEventSender W) :
    CloudEventSender (W * list (Context * Event)) :=
  fun ctx event '(w, got) => (send ctx event w, got ++ [(ctx, event)]).

(** The channel [q] is held by the registry for [eventType]: in the wildcard
    list for ["*"], in the list of the key otherwise. *)
Definition subscribed (s : State) (q : chan) (eventType : string) : Prop :=
  if bool_decide (eventType = "*"%string) then q ∈ allSubscribers (eb s)
  else q ∈ typed s eventType.

(** A consumer receives once from [ch]: [event := <-ch] with an event
    there. *)
Definition receive (ch : chan) (s : State) : option (Event * State) :=
  match chans s !! ch with
  | None => None
  | Some c =>
      match recv c with
      | Received event rest =>
          Some (event,
                set_chans (<[ch := mkChan (cap c) rest (closed c)]> (chans s)) s)
      | EndOfStream | WouldBlock => None
      end
  end.

(** The goroutines a call has started run one after another, each to its
    end. *)
Fixpoint deliver (spawned : list pc) (s : State) : option State :=
  match spawned with
  | [] => Some s
  | p :: rest =>
      match call s p with
      | Returned s' _ _ => deliver rest s'
      | _ => None
      end
  end.

(** What happens at a channel, one thing at a time: a Publish call together
    with the deliveries it started, or a receive. *)
Inductive op :=
| Pub (event : Event)
| Take.

(** The operations run one after the other on the channel [q]; [got] is what
    the consumer has received so far.  [None]: some operation could not
    complete (a full channel, an empty one, a panic). *)
Fixpoint in_turn (q : chan) (ops : list op) (s : State) (got : list Event)
    : option (State * list Event) :=
  match ops with
  | [] => Some (s, got)
  | Pub event :: rest =>
      match Publish event s with
      | Returned s1 _ spawned =>
          match deliver spawned s1 with
          | Some s2 => in_turn q rest s2 got
          | None => None
          end
      | _ => None
      end
  | Take :: rest =>
      match receive q s with
      | Some (event, s1) => in_turn q rest s1 (got ++ [event])
      | None => None
      end
  end.

(** The events of the Publish calls, in call order. *)
Fixpoint published (ops : list op) : list Event :=
  match ops with
  | [] => []
  | Pub event :: rest => event :: published rest
  | Take :: rest => published rest
  end.

(** [later s s']: [s'] comes after [s] by actions of goroutines, whichever
    they are and wherever they stand. *)
Inductive later : State → State → Prop :=
| later_now s : later s s
| later_step s p s1 p1 spawned s' :
    exec s p = Next s1 p1 spawned → later s1 s' → later s s'.

(** The registry and the flag are the same in both states. *)
Definition same_routing (s s' : State) : Prop :=
  subscribers (eb s') = subscribers (eb s) ∧
  allSubscribers (eb s') = allSubscribers (eb s) ∧
  shuttingDown (eb s') = shuttingDown (eb s).

(** Deliveries that have not yet called [wg.Done()]. *)
Definition pending (p : pc) : bool :=
  match p with
  | Send _ _ | Send_done => true
  | _ => false
  end.

(** How many goroutines of the pool are pending deliveries. *)
Fixpoint pending_count (l : list pc) : nat :=
  match l with
  | [] => 0
  | p :: rest => (if pending p then 1 else 0) + pending_count rest
  end.

(** The registry holds [q], under some key or in the wildcard list. *)
Definition registered (s : State) (q : chan) : Prop :=
  (∃ k l, subscribers (eb s) !! k = Some l ∧ q ∈ l) ∨ q ∈ allSubscribers (eb s).

(** [q] is a channel object that has been closed. *)
Definition is_closed (s : State) (q : chan) : Prop :=
  ∃ c, chans s !! q = Some c ∧ closed c = true.

(** Between calls that do not overlap: the counter counts the pending
    deliveries, every delivery targets a registered channel, and a registered
    channel is closed only with the counter at zero and the flag set. *)
Record orderly (w : World) : Prop := mk_orderly {
  orderly_wg : wg (eb (st w)) = pending_count (pool w);
  orderly_sends : ∀ q e, Send q e ∈ pool w → registered (st w) q;
  orderly_closed : ∀ q, registered (st w) q → is_closed (st w) q →
    wg (eb (st w)) = 0 ∧ shuttingDown (eb (st w)) = true;
  orderly_crash : crashed w ≠ Some "send on closed channel"%string
}.

(** ** States and schedules of the examples *)

(** The state a call ended or waits in. *)
Definition state_of (o : outcome) : State :=
  match o with
  | Returned s _ _ | Stuck s _ _ => s
  | _ => NewBroker
  end.

(** The world a schedule leads to from a new broker. *)
Definition after (acts : list action) : World :=
  default NewWorld (play acts NewWorld).

(** createTestEvent of the tests. *)
Definition event_of (id type : string) : Event := mkEvent id type "test" "test-data".

(** One subscriber of "test.event", as in TestNoPublishAfterShutdown. *)
Definition one_subscriber : State :=
  state_of (Subscribe "test.event" NewBroker).

(** The same after Shutdown. *)
Definition one_subscriber_shut : State := state_of (Shutdown one_subscriber).

(** And after a Subscribe that came later still. *)
Definition late_subscriber : State :=
  state_of (Subscribe "another.event" one_subscriber_shut).

(** Scenario B: subscribers of "a", of "b" and of "*". *)
Definition scenario_B : list action :=
  [Invoke (M_Subscribe "a"); Invoke (M_Subscribe "b"); Invoke (M_Subscribe "*")].

(** A subscriber of "a", then Shutdown. *)
Definition subscribed_then_shut : list action :=
  [Invoke (M_Subscribe "a"); Invoke M_Shutdown].

(** A subscriber with callback 7 whose channel holds two events and has
    been closed. *)
Definition two_buffered : State :=
  set_chans [mkChan 10 [event_of "e1" "a"; event_of "e2" "a"] true]
            (state_of (Subscribe "a" NewBroker)).

(** Three events for one subscriber of "a"; the consumer receives once,
    after the second. *)
Definition three_in_turn : list op :=
  [Pub (event_of "e1" "a"); Pub (event_of "e2" "a"); Take; Pub (event_of "e3" "a")].

(** Where [three_in_turn] ends: the state and what was received. *)
Definition three_in_turn_end : State * list Event :=
  default (NewBroker, [])
          (in_turn 0 three_in_turn (state_of (Subscribe "a" NewBroker)) []).

(** Two Publish calls, one after the other, and then the second delivery
    before the first. *)
Definition second_overtakes : list action :=
  [Invoke (M_Subscribe "a");
   Invoke (M_Publish (event_of "e1" "a"));
   Invoke (M_Publish (event_of "e2" "a"));
   Step 1; Step 0].

(** Publish reads the flag, Shutdown then runs from entry to return, and
    Publish goes on: it takes the read lock and starts a delivery to the
    channel Shutdown has closed. *)
Definition Publish_overlaps_Shutdown : list action :=
  [Invoke (M_Subscribe "a");
   Start (M_Publish (event_of "e1" "a"));
   Step 0;                 (* Publish: eb.shuttingDown.Load() is false *)
   Invoke M_Shutdown;      (* Store(true); Wait(), counter 0; close(ch) *)
   Step 0;                 (* Publish: eb.mu.RLock() *)
   Step 0;                 (* Publish: eb.wg.Add(1); go func() *)
   Step 0; Step 0; Step 0; (* Publish: second loop, RUnlock, return *)
   Step 1].                (* the delivery: subs <- event *)

(** Subscribe reads the flag, Shutdown then runs from entry to return, and
    Subscribe goes on: it takes the lock and registers a channel. *)
Definition Subscribe_overlaps_Shutdown : list action :=
  [Start (M_Subscribe "a");
   Step 0;                 (* Subscribe: eb.shuttingDown.Load() is false *)
   Invoke M_Shutdown;      (* Store(true); Wait(); nothing to close *)
   Step 0;                 (* Subscribe: eb.mu.Lock() *)
   Step 0;                 (* Subscribe: make, append *)
   Step 0].                (* Subscribe: Unlock, return ch *)

(** ** Further notions for the broker *)

(** No channel object holds more events than its capacity, and no capacity
    exceeds the 10 of [make(chan cloudevents.Event, 10)]. *)
Definition within_capacity (s : State) : Prop :=
  ∀ q c, chans s !! q = Some c → length (buf c) ≤ cap c ∧ cap c ≤ 10.

(** A goroutine that is done, or a delivery that waits on an open channel
    whose buffer is full. *)
Definition at_rest (s : State) (p : pc) : bool :=
  match p with
  | Done => true
  | Send q _ =>
      match chans s !! q with
      | Some c => negb (closed c) && Nat.leb (cap c) (length (buf c))
      | None => false
      end
  | _ => false
  end.

(** ** The NATS-backed broker: a logging wrapper around a Connection *)

Module Nats.

(** What the wrapper hands to [Logger.Error], [Logger.Debug], ...: strings,
    errors and [interface{}] values. *)
Inductive Arg (V Err : Type) :=
| AString (s : string)
| AValue (v : V)
| AError (err : Err).
Arguments AString {V Err} s.
Arguments AValue {V Err} v.
Arguments AError {V Err} err.

Inductive Level := LError | LWarn | LInfo | LDebug.

(** One call of a Logger method. *)
Record Entry (V Err : Type) := mkEntry {
  level : Level;
  args : list (Arg V Err)
}.
Arguments mkEntry {V Err} level args.
Arguments level {V Err} e.
Arguments args {V Err} e.

(** type Connection interface: each method acts on the state [C] of the
    connection; [error] is [option Err], [(interface{}, error)] a pair. *)
Record Connection (C V Sub Err : Type) := mkConnection {
  conn_Publish : string → V → C → option Err * C;
  conn_PublishRequest : string → string → V → C → option Err * C;
  conn_Request : string → V → V → nat → C → option Err * C;
  conn_Subscribe : string → V → C → (option Sub * option Err) * C;
  conn_QueueSubscribe : string → string → V → C → (option Sub * option Err) * C
}.
Arguments conn_Publish {C V Sub Err} c.
Arguments conn_PublishRequest {C V Sub Err} c.
Arguments conn_Request {C V Sub Err} c.
Arguments conn_Subscribe {C V Sub Err} c.
Arguments conn_QueueSubscribe {C V Sub Err} c.

(** const delimiter = " " *)
Definition delimiter : string := " ".

(** type broker struct { Logger; Connection }: the state of the connection
    and what has been logged. *)
Definition broker (C V Err : Type) : Type := C * list (Entry V Err).

Definition Publish {C V Sub Err} (conn : Connection C V Sub Err)
    (subject : string) (v : V) (self : broker C V Err)
    : option Err * broker C V Err :=
  match conn_Publish conn subject v self.1 with
  | (Some err, c) => (Some err, (c, self.2 ++ [mkEntry LError [AError err]]))
  | (None, c) =>
      (None, (c, self.2 ++ [mkEntry LDebug [AString subject; AString delimiter; AValue v]]))
  end.

Definition PublishRequest {C V Sub Err} (conn : Connection C V Sub Err)
    (subject reply : string) (v : V) (self : broker C V Err)
    : option Err * broker C V Err :=
  match conn_PublishRequest conn subject reply v self.1 with
  | (Some err, c) => (Some err, (c, self.2 ++ [mkEntry LError [AError err]]))
  | (None, c) =>
      (None, (c, self.2 ++ [mkEntry LDebug [AString subject; AString delimiter; AValue v]]))
  end.

Definition Request {C V Sub Err} (conn : Connection C V Sub Err)
    (subject : string) (v vPtr : V) (timeout : nat) (self : broker C V Err)
    : option Err * broker C V Err :=
  match conn_Request conn subject v vPtr timeout self.1 with
  | (Some err, c) => (Some err, (c, self.2 ++ [mkEntry LError [AError err]]))
  | (None, c) =>
      (None, (c, self.2 ++ [mkEntry LDebug [AString subject; AString delimiter; AValue v]]))
  end.

Definition Subscribe {C V Sub Err} (conn : Connection C V Sub Err)
    (subject : string) (cb : V) (self : broker C V Err)
    : (option Sub * option Err) * broker C V Err :=
  match conn_Subscribe conn subject cb self.1 with
  | ((_, Some err), c) =>
      ((None, Some err), (c, self.2 ++ [mkEntry LError [AError err]]))
  | ((sub, None), c) =>
      ((sub, None), (c, self.2 ++ [mkEntry LDebug [AString subject]]))
  end.

Definition QueueSubscribe {C V Sub Err} (conn : Connection C V Sub Err)
    (subject queue : string) (cb : V) (self : broker C V Err)
    : (option Sub * option Err) * broker C V Err :=
  match conn_QueueSubscribe conn subject queue cb self.1 with
  | ((_, Some err), c) =>
      ((None, Some err), (c, self.2 ++ [mkEntry LError [AError err]]))
  | ((sub, None), c) =>
      ((sub, None),
       (c, self.2 ++ [mkEntry LDebug [AString subject; AString delimiter; AString queue]]))
  end.

(** A call of one of the five methods. *)
Inductive request (V : Type) :=
| RPublish (subject : string) (v : V)
| RPublishRequest (subject reply : string) (v : V)
| RRequest (subject : string) (v vPtr : V) (timeout : nat)
| RSubscribe (subject : string) (cb : V)
| RQueueSubscribe (subject queue : string) (cb : V).
Arguments RPublish {V}.
Arguments RPublishRequest {V}.
Arguments RRequest {V}.
Arguments RSubscribe {V}.
Arguments RQueueSubscribe {V}.

(** The call made on the broker ... *)
Definition perform {C V Sub Err} (conn : Connection C V Sub Err)
    (r : request V) (self : broker C V Err)
    : (option Sub * option Err) * broker C V Err :=
  match r with
  | RPublish subject v =>
      let '(err, b) := Publish conn subject v self in ((None, err), b)
  | RPublishRequest subject reply v =>
      let '(err, b) := PublishRequest conn subject reply v self in ((None, err), b)
  | RRequest subject v vPtr timeout =>
      let '(err, b) := Request conn subject v vPtr timeout self in ((None, err), b)
  | RSubscribe subject cb => Subscribe conn subject cb self
  | RQueueSubscribe subject queue cb => QueueSubscribe conn subject queue cb self
  end.

(** ... and the same call made on the connection itself. *)
Definition direct {C V Sub Err} (conn : Connection C V Sub Err)
    (r : request V) (c : C) : (option Sub * option Err) * C :=
  match r with
  | RPublish subject v =>
      let '(err, c') := conn_Publish conn subject v c in ((None, err), c')
  | RPublishRequest subject reply v =>
      let '(err, c') := conn_PublishRequest conn subject reply v c in ((None, err), c')
  | RRequest subject v vPtr timeout =>
      let '(err, c') := conn_Request conn subject v vPtr timeout c in ((None, err), c')
  | RSubscribe subject cb => conn_Subscribe conn subject cb c
  | RQueueSubscribe subject queue cb => conn_QueueSubscribe conn subject queue cb c
  end.

(** Calls one after the other, with what each returned. *)
Fixpoint perform_all {C V Sub Err} (conn : Connection C V Sub Err)
    (rs : list (request V)) (self : broker C V Err)
    : list (option Sub * option Err) * broker C V Err :=
  match rs with
  | [] => ([], self)
  | r :: rest =>
      let '(res, b) := perform conn r self in
      let '(ress, b') := perform_all conn rest b in
      (res :: ress, b')
  end.

Fixpoint direct_all {C V Sub Err} (conn : Connection C V Sub Err)
    (rs : list (request V)) (c : C)
    : list (option Sub * option Err) * C :=
  match rs with
  | [] => ([], c)
  | r :: rest =>
      let '(res, c') := direct conn r c in
      let '(ress, c'') := direct_all conn rest c' in
      (res :: ress, c'')
  end.

(** The errors among the entries of a log, oldest first. *)
Definition logged_errors {V Err} (log : list (Entry V Err)) : list Err :=
  flat_map (λ e, match level e, args e with
                 | LError, [AError err] => [err]
                 | _, _ => []
                 end) log.

(** The errors among what calls returned, oldest first. *)
Definition returned_errors {Sub Err} (ress : list (option Sub * option Err))
    : list Err :=
  flat_map (λ res, match res.2 with Some err => [err] | None => [] end) ress.

(** On an error the caller gets no subscription. *)
Definition drop_on_error {Sub Err} (res : option Sub * option Err)
    : option Sub * option Err :=
  match res.2 with
  | Some err => (None, Some err)
  | None => res
  end.

End Nats.

(** ** NewNats: connecting with back-off *)

Module Dial.

(** What NewNats has spent to the outside: the seconds spent in
    [time.Sleep] and the number of calls of [nats.Connect]. *)
Record Effort := mkEffort {
  slept : nat;
  dials : nat
}.

(** The loop over the intervals.  [connect k] is what the call number [k]
    of [nats.Connect] returns; [nc] and [err] are the two variables the
    loop assigns. *)
Fixpoint connect_loop {Conn Err : Type} (connect : nat → Err + Conn)
    (intervals : list nat) (spent : Effort)
    (nc : option Conn) (err : option Err)
    : Effort * (option Conn * option Err) :=
  match intervals with
  | [] => (spent, (nc, err))
  | interval :: rest =>
      (* time.Sleep(time.Duration(interval) * time.Second) *)
      let spent' := mkEffort (slept spent + interval) (S (dials spent)) in
      match connect (dials spent) with
      | inl e => connect_loop connect rest spent' None (Some e)   (* continue *)
      | inr c => (spent', (Some c, None))                          (* break *)
      end
  end.

(** How NewNats ends: [log.Fatal] ends the process, or a broker is
    returned over the encoded connection. *)
Inductive started (EConn Err : Type) :=
| Fatal (err : Err)
| Up (conn : EConn).
Arguments Fatal {EConn Err} err.
Arguments Up {EConn Err} conn.

(** The intervals of nats.go. *)
Definition intervals : list nat := [0; 1; 2; 5; 10; 30; 60].

(** func NewNats: [encode] is [nats.NewEncodedConn]. *)
Definition NewNats {Conn EConn Err : Type} (connect : nat → Err + Conn)
    (encode : option Conn → string → Err + EConn) (enc : string)
    : Effort * started EConn Err :=
  let '(spent, (nc, err)) :=
    connect_loop connect intervals (mkEffort 0 0) None None in
  match err with
  | Some e => (spent, Fatal e)
  | None =>
      match encode nc enc with
      | inl e => (spent, Fatal e)
      | inr c => (spent, Up c)
      end
  end.

(** The first [n] calls of [nats.Connect] fail. *)
Definition all_fail {Conn Err : Type} (connect : nat → Err + Conn) (n : nat) : bool :=
  forallb (λ k, match connect k with inl _ => true | inr _ => false end) (seq 0 n).

End Dial.

(** A server that refuses twice and then accepts. *)
Definition third_time_lucky (k : nat) : string + nat :=
  if Nat.ltb k 2 then inl "connection refused"%string else inr k.

(** A server that always refuses; the error tells the attempt. *)
Definition never_there (k : nat) : string + nat :=
  inl (if Nat.eqb k 6 then "refused at last" else "refused")%string.

(** An encoder that accepts any live connection. *)
Definition encode_any (nc : option nat) (enc : string) : string + (nat * string) :=
  match nc with
  | Some c => inr (c, enc)
  | None => inl "nats: invalid connection"%string
  end.

(** ** The Pub/Sub forwarder *)

Module PubSub.

(** The contexts Send builds on the one it is given. *)
Inductive Ctx :=
| Plain (ctx : Context)
| WithTopic (ctx : Ctx) (topic : string)                          (* cecontext.WithTopic *)
| WithCustomAttributes (ctx : Ctx) (attrs : gmap string string).  (* cepubsub.WithCustomAttributes *)

(** cloudevents.Client, as far as it is used: [client.Send(ctx, event)]
    acts on the state [K] of the client and returns an error or nil. *)
Definition Client (K Err : Type) : Type := Ctx → Event → K → option Err * K.

(** type PubSubForwarder struct; what the logger got is kept beside the
    state of the client, as the list of the calls of [Errorf]. *)
Record PubSubForwarder (K Err : Type) := mkPubSubForwarder {
  topic : string;
  client : Client K Err
}.
Arguments mkPubSubForwarder {K Err} topic client.
Arguments topic {K Err} p.
Arguments client {K Err} p.

Definition content_type : gmap string string :=
  {[ "Content-Type"%string := "application/cloudevents+json; charset=UTF-8"%string ]}.

(** func (p *PubSubForwarder) Send(ctx context.Context, event Event) *)
Definition Send {K Err : Type} (p : PubSubForwarder K Err)
    : CloudEventSender (K * list (string * Err)) :=
  fun ctx event '(k, log) =>
    let ctx1 := WithTopic (Plain ctx) (topic p) in
    let ctx2 := WithCustomAttributes ctx1 content_type in
    match client p ctx2 event k with
    | (Some err, k') => (k', log ++ [("failed to publish to pubsub: %v"%string, err)])
    | (None, k') => (k', log)
    end.

(** What NewPubSubForwarder asks of the outside: the environment variable,
    the default credentials (their ProjectID), the Pub/Sub protocol for a
    project and the client over a protocol. *)
Record Outside (Proto K Err : Type) := mkOutside {
  GOOGLE_CLOUD_PROJECT : string;
  FindDefaultCredentials : Err + string;
  New : string → Err + Proto;
  NewClient : Proto → Err + Client K Err
}.
Arguments mkOutside {Proto K Err}.
Arguments GOOGLE_CLOUD_PROJECT {Proto K Err} o.
Arguments FindDefaultCredentials {Proto K Err} o.
Arguments New {Proto K Err} o.
Arguments NewClient {Proto K Err} o.

(** [fmt.Errorf(format, err)] with a format that ends in [%w]. *)
Inductive error (Err : Type) :=
| Errorf (format : string) (err : Err).
Arguments Errorf {Err} format err.

(** func NewPubSubForwarder(logger Logger, topic string) *)
Definition NewPubSubForwarder {Proto K Err : Type}
    (out : Outside Proto K Err) (topic : string)
    : error Err + (Event → K * list (string * Err) → K * list (string * Err)) :=
  let projectID := GOOGLE_CLOUD_PROJECT out in
  let found :=
    if bool_decide (projectID = ""%string) then
      match FindDefaultCredentials out with
      | inl err => inl (Errorf "failed to retrieve project ID: %w" err)
      | inr credentials => inr credentials
      end
    else inr projectID in
  match found with
  | inl e => inl e
  | inr projectID =>
      match New out projectID with
      | inl err => inl (Errorf "failed to instantiate pubsub protocol: %w" err)
      | inr protocol =>
          match NewClient out protocol with
          | inl err => inl (Errorf "failed to create cloudevents client: %w" err)
          | inr client =>
              inr (CloudEventForwarder (Send (mkPubSubForwarder topic client)))
          end
      end
  end.

(** A client that keeps what it is sent, and fails as [fails] says. *)
Definition recording {Err : Type} (fails : Event → option Err)
    : Client (list (Ctx * Event)) Err :=
  fun ctx event sent => (fails event, sent ++ [(ctx, event)]).

(** The context every event is sent with. *)
Definition sent_with (topic : string) : Ctx :=
  WithCustomAttributes (WithTopic (Plain Background) topic) content_type.

(** The handler applied to events one after the other. *)
Definition forward {W : Type} (handler : Event → W → W) (events : list Event)
    (w : W) : W :=
  foldl (λ w e, handler e w) w events.

(** The same outside, with other credentials. *)
Definition with_credentials {Proto K Err : Type} (out : Outside Proto K Err)
    (credentials : Err + string) : Outside Proto K Err :=
  mkOutside (GOOGLE_CLOUD_PROJECT out) credentials (New out) (NewClient out).

(** The same outside, with another protocol maker and client maker. *)
Definition with_services {Proto K Err : Type} (out : Outside Proto K Err)
    (new : string → Err + Proto) (newClient : Proto → Err + Client K Err)
    : Outside Proto K Err :=
  mkOutside (GOOGLE_CLOUD_PROJECT out) (FindDefaultCredentials out) new newClient.

(** The errors of the events that fail, with the format of Send. *)
Definition failures {Err : Type} (fails : Event → option Err)
    (events : list Event) : list (string * Err) :=
  flat_map (λ e, match fails e with
                 | Some err => [("failed to publish to pubsub: %v"%string, err)]
                 | None => []
                 end) events.

End PubSub.

(** ** More states and schedules of the examples *)

(** Scenario B, and then an event of type "a" is published. *)
Definition published_to_B : list action :=
  scenario_B ++ [Invoke (M_Publish (event_of "e1" "a"))].

(** One subscriber of "a" and eleven events for it; ten deliveries run, the
    eleventh finds the buffer full. *)
Definition eleven_published : list action :=
  Invoke (M_Subscribe "a") ::
  replicate 11 (Invoke (M_Publish (event_of "e" "a"))) ++
  flat_map (λ i, [Step i; Step i]) (seq 0 10).

(** One subscriber of "a", two events published and delivered. *)
Definition two_delivered : list action :=
  [Invoke (M_Subscribe "a");
   Invoke (M_Publish (event_of "e1" "a"));
   Invoke (M_Publish (event_of "e2" "a"));
   Step 0; Step 0; Step 1; Step 1].

(** One subscriber, of "b". *)
Definition only_b : list action := [Invoke (M_Subscribe "b")].

(** An outside with the variable set and no default credentials; protocol
    and client can always be made. *)
Definition variable_set : PubSub.Outside string (list (PubSub.Ctx * Event)) string :=
  PubSub.mkOutside "my-project" (inl "could not find default credentials"%string)
    (λ projectID, inr projectID)
    (λ protocol, inr (PubSub.recording (λ _, None))).

(** The same with the variable empty. *)
Definition variable_empty : PubSub.Outside string (list (PubSub.Ctx * Event)) string :=
  PubSub.mkOutside "" (inl "could not find default credentials"%string)
    (λ projectID, inr projectID)
    (λ protocol, inr (PubSub.recording (λ _, None))).

(** The channel of the one subscriber after [eleven_published]. *)
Definition full_queue : Chan :=
  default (mkChan 0 [] false) (chans (st (after eleven_published)) !! 0).

(** Scenario B, and then Shutdown. *)
Definition shut_B : World :=
  default NewWorld (play [Invoke M_Shutdown] (after scenario_B)).

(** ** NewNatsFromEnv and the NewNats of broker.go *)

Module Elapse.

(** [os.Getenv]: an unset variable reads as the empty string. *)
Definition Getenv (env : gmap string string) (key : string) : string :=
  default ""%string (env !! key).

(** nats.JSON_ENCODER *)
Definition JSON_ENCODER : string := "json".

(** The intervals of this NewNats. *)
Definition intervals : list nat := [0; 1; 2; 5].

(** How it ends: [logger.Fatal(url, delimiter, err)], taken to end the
    process as [log.Fatal] does, or a broker over the encoded connection. *)
Inductive started (EConn Err : Type) :=
| Fatal (url : string) (err : Err)
| Up (conn : EConn).
Arguments Fatal {EConn Err} url err.
Arguments Up {EConn Err} conn.

(** func NewNats(logger Logger, url, token, enc string): [connect url token k]
    is what call number [k] of [nats.Connect(url, nats.Token(token), ...)]
    returns. *)
Definition NewNats {Conn EConn Err : Type}
    (connect : string → string → nat → Err + Conn)
    (encode : option Conn → string → Err + EConn) (url token enc : string)
    : Dial.Effort * started EConn Err :=
  let '(spent, (nc, err)) :=
    Dial.connect_loop (connect url token) intervals (Dial.mkEffort 0 0) None None in
  match err with
  | Some e => (spent, Fatal url e)
  | None =>
      match encode nc enc with
      | inl e => (spent, Fatal url e)
      | inr c => (spent, Up c)
      end
  end.

(** func NewNatsFromEnv(logger Logger): [os.LookupEnv] tells an unset
    variable from an empty one. *)
Definition NewNatsFromEnv {Conn EConn Err : Type}
    (connect : string → string → nat → Err + Conn)
    (encode : option Conn → string → Err + EConn) (env : gmap string string)
    : Dial.Effort * started EConn Err :=
  let url := Getenv env "ELAPSE_NATS_URL" in
  let token := Getenv env "ELAPSE_NATS_TOKEN" in
  let enc :=
    match env !! "ELAPSE_NATS_ENC"%string with
    | Some enc => enc
    | None => JSON_ENCODER
    end in
  NewNats connect encode url token enc.

End Elapse.

(** A server that refuses whoever calls; the error tells url and attempt. *)
Definition refuses_all (url token : string) (k : nat) : string + nat :=
  inl (url +:+ (if Nat.eqb k 3 then " refused at last" else " refused"))%string.

(** An environment with the url only. *)
Definition url_only : gmap string string :=
  {[ "ELAPSE_NATS_URL"%string := "nats://localhost:4222"%string ]}.

(** * Properties *)

(** ** Running one goroutine *)

Lemma evals_run s p acc r :
  evals s p acc r → ∃ n, ∀ m, n ≤ m → run m s p acc = r.
Proof.
  induction 1 as [s p acc H|s p acc H|s p acc msg H|s p acc s' p' sp r H _ [n IH]].
  - exists 0. intros [|m] _; simpl; by rewrite H.
  - exists 0. intros [|m] _; simpl; by rewrite H.
  - exists 0. intros [|m] _; simpl; by rewrite H.
  - exists (S n). intros [|m] Hm; [lia|]. simpl. rewrite H. apply IH. lia.
Qed.

Lemma run_evals n s p acc r :
  run n s p acc = r → r ≠ Timeout → evals s p acc r.
Proof.
  revert s p acc. induction n as [|n IH]; intros s p acc; simpl;
    destruct (exec s p) as [s' p' sp| | |] eqn:E; intros <- Hr;
    try congruence; try (by constructor).
  eapply evals_next; [exact E|]. by apply IH.
Qed.

Lemma evals_fun s p acc r1 r2 : evals s p acc r1 → evals s p acc r2 → r1 = r2.
Proof.
  intros [n1 H1]%evals_run [n2 H2]%evals_run.
  rewrite <- (H1 (n1 `max` n2)), <- (H2 (n1 `max` n2)); [done|lia..].
Qed.

Lemma close_inr ch s s' :
  close ch s = inr s' →
  ∃ c, chans s !! ch = Some c ∧ closed c = false ∧
       s' = set_chans (<[ch := mkChan (cap c) (buf c) true]> (chans s)) s.
Proof.
  unfold close. destruct (chans s !! ch) as [c|]; [|done].
  destruct (closed c) eqn:E; [done|]. intros [= <-]. by exists c.
Qed.

Lemma exec_weight p : ∀ s s' p' spawned,
  exec s p = Next s' p' spawned → weight s' p' < weight s p.
Proof.
  induction p as [ty|ty|ty|ch|ch|e|e|e rest|e rest| |c e| |callee IH f|ch f|f e ch
                  | | | |rest|rest| | ]; intros s s' p' sp; simpl.
  - destruct (shuttingDown (eb s)); [|intros [= <- <- <-]; simpl; lia].
    unfold close; simpl. rewrite lookup_app_r, Nat.sub_diag; [|done]. simpl.
    intros [= <- <- <-]. simpl. lia.
  - case_match; [done|]. intros [= <- <- <-]. simpl. lia.
  - destruct (register ty s). intros [= <- <- <-]. simpl. lia.
  - case_match; [|done]. intros [= <- <- <-]. simpl. lia.
  - done.
  - case_match; intros [= <- <- <-]; simpl; lia.
  - case_match; [done|]. intros [= <- <- <-]. simpl. unfold typed. simpl. lia.
  - destruct rest; intros [= <- <- <-]; simpl; lia.
  - destruct rest; intros [= <- <- <-]; simpl; lia.
  - case_match; [done|]. intros [= <- <- <-]. simpl. lia.
  - destruct (chans s !! c) as [ch|]; [|done].
    repeat case_match; try done. intros [= <- <- <-]. simpl. lia.
  - case_match; [done|]. intros [= <- <- <-]. simpl. lia.
  - destruct callee; try (intros [= <- <- <-]; simpl; lia);
      (destruct (exec s _) as [s1 p1 sp1| | |] eqn:E; [|done..];
       intros [= <- <- <-]; apply IH in E; simpl in *; lia).
  - unfold buf_of. destruct (chans s !! ch) as [c|] eqn:Hc; [|done].
    unfold recv. destruct (buf c) as [|x rest] eqn:Hb.
    + destruct (closed c); [|done]. intros [= <- <- <-]. simpl. lia.
    + intros [= <- <- <-]. simpl. unfold buf_of. simpl.
      rewrite list_lookup_insert_eq by (by eapply lookup_lt_Some). simpl. lia.
  - intros [= <- <- <-]. simpl. unfold buf_of. simpl. lia.
  - intros [= <- <- <-]. simpl. unfold typed_all. simpl. lia.
  - case_match; [|done]. intros [= <- <- <-]. simpl. lia.
  - case_match; [done|]. intros [= <- <- <-]. simpl. unfold typed_all. simpl. lia.
  - destruct rest as [|c rest]; [intros [= <- <- <-]; simpl; lia|].
    destruct (close c s) as [|s1] eqn:E; [done|]. intros [= <- <- <-].
    apply close_inr in E as (x & _ & _ & ->). simpl. lia.
  - destruct rest as [|c rest]; [intros [= <- <- <-]; simpl; lia|].
    destruct (close c s) as [|s1] eqn:E; [done|]. intros [= <- <- <-].
    apply close_inr in E as (x & _ & _ & ->). simpl. lia.
  - case_match; [|done]. intros [= <- <- <-]. simpl. lia.
  - done.
Qed.

Lemma run_weight n : ∀ s p acc, weight s p ≤ n → run n s p acc ≠ Timeout.
Proof.
  induction n as [|n IH]; intros s p acc Hw; simpl;
    destruct (exec s p) as [s' p' sp| | |] eqn:E; try done.
  - apply exec_weight in E. lia.
  - apply IH. apply exec_weight in E. lia.
Qed.

(** A call never runs out of fuel: it returns, waits or panics. *)
Lemma call_total s p : call s p ≠ Timeout.
Proof. by apply run_weight. Qed.

Lemma call_evals s p r : evals s p [] r → call s p = r.
Proof.
  intros H. eapply evals_fun; [|exact H].
  eapply run_evals; [done|apply call_total].
Qed.

Lemma evals_call s p : evals s p [] (call s p).
Proof. eapply run_evals; [done|apply call_total]. Qed.

(** ** The methods in closed form *)

Ltac break_state s :=
  let subs := fresh "subs" in let alls := fresh "alls" in
  let m := fresh "m" in let n := fresh "n" in let sd := fresh "sd" in
  let h := fresh "h" in let cs := fresh "cs" in
  destruct s as [[subs alls m n sd] h cs]; simpl in *.

Ltac step := eapply evals_next; [simpl; reflexivity|]; simpl.

Lemma set_wg_add_0 s : set_wg (wg (eb s) + 0) s = s.
Proof. break_state s. by rewrite Nat.add_0_r. Qed.

Lemma Subscribe_shut eventType s :
  shuttingDown (eb s) = true →
  Subscribe eventType s =
    Returned (set_chans (chans s ++ [mkChan 0 [] true]) s)
             (Return (length (chans s))) [].
Proof.
  intros Hs. apply call_evals.
  eapply evals_next.
  - simpl. rewrite Hs. unfold close. simpl.
    rewrite lookup_app_r, Nat.sub_diag by done. simpl. reflexivity.
  - simpl. rewrite insert_app_r_alt, Nat.sub_diag by done. simpl.
    by apply evals_halt.
Qed.

Lemma register_fst eventType s : (register eventType s).1 = length (chans s).
Proof. unfold register. simpl. by case_bool_decide. Qed.

Lemma exec_Subscribe_register eventType s :
  exec s (Subscribe_register eventType) =
    Next (register eventType s).2 (Subscribe_unlock (register eventType s).1) [].
Proof. simpl. by destruct (register eventType s). Qed.

Lemma Subscribe_open eventType s :
  shuttingDown (eb s) = false → idle s →
  Subscribe eventType s =
    Returned (register eventType s).2 (Return (length (chans s))) [].
Proof.
  intros Hs Hi. apply call_evals.
  eapply evals_next; [simpl; rewrite Hs; reflexivity|].
  eapply evals_next; [simpl; rewrite Hi; simpl; reflexivity|].
  eapply evals_next; [apply exec_Subscribe_register|].
  eapply (evals_next _ _ _
            (set_mu (mkRWMutex false 0)
               (register eventType (set_mu (mkRWMutex true 0) s)).2) (Return _) []).
  { simpl. unfold register. simpl. case_bool_decide; simpl; reflexivity. }
  simpl.
  replace (set_mu _ _) with (register eventType s).2.
  - rewrite <- (register_fst eventType s).
    replace (register eventType (set_mu _ s)).1 with (register eventType s).1
      by (unfold register; simpl; by case_bool_decide).
    by apply evals_halt.
  - unfold idle in Hi. break_state s. subst m.
    unfold register. simpl. by case_bool_decide.
Qed.

Lemma Subscribe_busy eventType s :
  shuttingDown (eb s) = false →
  writer (mu (eb s)) || negb (Nat.eqb (readers (mu (eb s))) 0) = true →
  Subscribe eventType s = Stuck s (Subscribe_lock eventType) [].
Proof.
  intros Hs Hb. apply call_evals.
  eapply evals_next; [simpl; rewrite Hs; reflexivity|].
  apply evals_block. simpl. by rewrite Hb.
Qed.

Lemma Publish_shut event s :
  shuttingDown (eb s) = true → Publish event s = Returned s Done [].
Proof.
  intros Hs. apply call_evals.
  eapply evals_next; [simpl; rewrite Hs; reflexivity|].
  by apply evals_halt.
Qed.

Lemma evals_Publish_all event l : ∀ s acc r,
  evals (set_wg (wg (eb s) + length l) s) Publish_runlock
        (acc ++ map (λ c, Send c event) l) r →
  evals s (Publish_all event l) acc r.
Proof.
  induction l as [|c l IH]; intros s acc r H; simpl in H.
  - rewrite set_wg_add_0 in H. step. exact H.
  - step. apply IH. simpl. rewrite <- app_assoc. simpl.
    by rewrite Nat.add_succ_r in H.
Qed.

Lemma evals_Publish_typed event l : ∀ s acc r,
  evals (set_wg (wg (eb s) + length l) s)
        (Publish_all event (allSubscribers (eb s)))
        (acc ++ map (λ c, Send c event) l) r →
  evals s (Publish_typed event l) acc r.
Proof.
  induction l as [|c l IH]; intros s acc r H; simpl in H.
  - rewrite set_wg_add_0 in H. step. exact H.
  - step. apply IH. simpl. rewrite <- app_assoc. simpl.
    by rewrite Nat.add_succ_r in H.
Qed.

Lemma Publish_open event s :
  shuttingDown (eb s) = false → writer (mu (eb s)) = false →
  Publish event s =
    Returned (set_wg (wg (eb s) + length (targets s event)) s) Done
             (map (λ c, Send c event) (targets s event)).
Proof.
  intros Hs Hw. apply call_evals.
  eapply evals_next; [simpl; rewrite Hs; reflexivity|].
  eapply evals_next; [simpl; rewrite Hw; reflexivity|].
  apply evals_Publish_typed, evals_Publish_all. simpl.
  step. rewrite app_nil_r. unfold targets. rewrite map_app, length_app.
  replace (set_mu _ _) with
    (set_wg (wg (eb s) + (length (typed s (Type_ event)) +
                          length (allSubscribers (eb s)))) s).
  - by apply evals_halt.
  - break_state s. destruct m as [w r]. simpl in *. subst w.
    unfold typed. simpl. by rewrite Nat.add_assoc.
Qed.

Lemma Publish_busy event s :
  shuttingDown (eb s) = false → writer (mu (eb s)) = true →
  Publish event s = Stuck s (Publish_rlock event) [].
Proof.
  intros Hs Hw. apply call_evals.
  eapply evals_next; [simpl; rewrite Hs; reflexivity|].
  apply evals_block. simpl. by rewrite Hw.
Qed.

Lemma close_list_app l1 l2 s :
  close_list (l1 ++ l2) s =
    match close_list l1 s with
    | inl msg => inl msg
    | inr s' => close_list l2 s'
    end.
Proof.
  revert s. induction l1 as [|c l1 IH]; intros s; simpl; [done|].
  destruct (close c s); [done|]. apply IH.
Qed.

Lemma close_eb ch s s' : close ch s = inr s' → eb s' = eb s.
Proof. by intros (c & _ & _ & ->)%close_inr. Qed.

Lemma close_list_eb l : ∀ s s', close_list l s = inr s' → eb s' = eb s.
Proof.
  induction l as [|c l IH]; intros s s'; simpl; [by intros [= <-]|].
  destruct (close c s) as [|s1] eqn:E; [done|].
  intros H%IH. rewrite H. by eapply close_eb.
Qed.

Lemma evals_Shutdown_all l : ∀ s acc r,
  match close_list l s with
  | inl msg => r = Panicked msg
  | inr s' => evals s' Shutdown_unlock acc r
  end →
  evals s (Shutdown_all l) acc r.
Proof.
  induction l as [|c l IH]; intros s acc r; simpl.
  - intros H. step. by rewrite app_nil_r.
  - destruct (close c s) as [msg|s1] eqn:E.
    + intros ->. apply evals_panic. simpl. by rewrite E.
    + intros H. eapply evals_next; [simpl; rewrite E; reflexivity|].
      rewrite app_nil_r. by apply IH.
Qed.

Lemma evals_Shutdown_typed l : ∀ s acc r,
  match close_list l s with
  | inl msg => r = Panicked msg
  | inr s' => evals s' (Shutdown_all (allSubscribers (eb s'))) acc r
  end →
  evals s (Shutdown_typed l) acc r.
Proof.
  induction l as [|c l IH]; intros s acc r; simpl.
  - intros H. step. by rewrite app_nil_r.
  - destruct (close c s) as [msg|s1] eqn:E.
    + intros ->. apply evals_panic. simpl. by rewrite E.
    + intros H. eapply evals_next; [simpl; rewrite E; reflexivity|].
      rewrite app_nil_r. by apply IH.
Qed.

(** Shutdown in one piece: the flag is stored, the call waits for the
    counter and for the lock, closes the typed channels and then the wildcard
    channels, and unlocks. *)
Lemma Shutdown_eq s :
  Shutdown s =
    let s1 := set_shuttingDown true s in
    match wg (eb s) with
    | S _ => Stuck s1 Shutdown_wait []
    | 0 =>
        if writer (mu (eb s)) || negb (Nat.eqb (readers (mu (eb s))) 0)
        then Stuck s1 Shutdown_lock []
        else
          match close_list (typed_all s ++ allSubscribers (eb s))
                           (set_mu (mkRWMutex true 0) s1) with
          | inl msg => Panicked msg
          | inr s2 => Returned (set_mu (mkRWMutex false 0) s2) Done []
          end
    end.
Proof.
  apply call_evals. step. simpl.
  destruct (wg (eb s)) as [|n] eqn:Hwg.
  2: { apply evals_block. simpl. by rewrite Hwg. }
  eapply evals_next; [simpl; rewrite Hwg; reflexivity|]. simpl.
  destruct (writer (mu (eb s)) || negb (Nat.eqb (readers (mu (eb s))) 0)) eqn:Hmu.
  { apply evals_block. simpl. by rewrite Hmu. }
  eapply evals_next; [simpl; rewrite Hmu; reflexivity|]. simpl.
  apply evals_Shutdown_typed.
  rewrite close_list_app.
  change (typed_all (set_shuttingDown true s)) with (typed_all s).
  destruct (close_list (typed_all s) _) as [msg|s2] eqn:E2; [done|].
  apply evals_Shutdown_all.
  rewrite (close_list_eb _ _ _ E2). simpl.
  destruct (close_list (allSubscribers (eb s)) s2) as [msg|s3] eqn:E3; [done|].
  pose proof (close_list_eb _ _ _ E3) as H3.
  pose proof (close_list_eb _ _ _ E2) as H2.
  eapply evals_next.
  { simpl. rewrite H3, H2. simpl. reflexivity. }
  by apply evals_halt.
Qed.

Lemma evals_Range ch f l : ∀ s c acc r,
  chans s !! ch = Some c → buf c = l →
  evals (consume ch f c s) (Range ch f) acc r →
  evals s (Range ch f) acc r.
Proof.
  induction l as [|e l IH]; intros s c acc r Hc Hb; unfold consume; rewrite Hb.
  - replace (set_calls _ _) with s; [done|].
    destruct c as [n b cl]. simpl in *. subst b.
    rewrite list_insert_id by done. break_state s. by rewrite app_nil_r.
  - intros H.
    assert (ch < length (chans s)) as Hlt by (by eapply lookup_lt_Some).
    eapply evals_next.
    { simpl. rewrite Hc. unfold recv. rewrite Hb. reflexivity. }
    step. rewrite !app_nil_r.
    eapply (IH _ (mkChan (cap c) l (closed c))); simpl.
    + by rewrite list_lookup_insert_eq.
    + done.
    + unfold consume. simpl. rewrite list_insert_insert_eq, <- app_assoc.
      simpl in H. exact H.
Qed.

Lemma Range_closed ch f c s :
  chans s !! ch = Some c → closed c = true →
  call s (Range ch f) = Returned (consume ch f c s) Done [].
Proof.
  intros Hc Hcl. apply call_evals. eapply evals_Range; [done..|].
  assert (ch < length (chans s)) as Hlt by (by eapply lookup_lt_Some).
  eapply evals_next.
  - simpl. rewrite list_lookup_insert_eq by done. unfold recv. simpl.
    rewrite Hcl. reflexivity.
  - by apply evals_halt.
Qed.

Lemma Range_open ch f c s :
  chans s !! ch = Some c → closed c = false →
  call s (Range ch f) = Stuck (consume ch f c s) (Range ch f) [].
Proof.
  intros Hc Hcl. apply call_evals. eapply evals_Range; [done..|].
  assert (ch < length (chans s)) as Hlt by (by eapply lookup_lt_Some).
  apply evals_block.
  simpl. rewrite list_lookup_insert_eq by done. unfold recv. simpl.
  by rewrite Hcl.
Qed.

Lemma evals_frame f s p acc r :
  evals s p acc r → ∀ s' ch spawned, r = Returned s' (Return ch) spawned →
  evals s (SubscribeFunc_call p f) acc (Returned s' Done (spawned ++ [Range ch f])).
Proof.
  induction 1 as [s p acc H|s p acc H|s p acc msg H|s p acc s1 p1 sp r H _ IH];
    intros s' ch spawned; try done.
  - intros [= -> -> ->]. step. by apply evals_halt.
  - intros ->. eapply evals_next; [|by eapply IH].
    destruct p; simpl in *; first [done | by rewrite H | by simplify_eq].
Qed.

Lemma SubscribeFunc_returns eventType f s s' ch spawned :
  Subscribe eventType s = Returned s' (Return ch) spawned →
  SubscribeFunc eventType f s = Returned s' Done (spawned ++ [Range ch f]).
Proof.
  intros H. apply call_evals.
  eapply (evals_frame f s _ [] _ (evals_call s (Subscribe_load eventType))).
  exact H.
Qed.

(** ** The registry stays well formed *)

Lemma wf_NewBroker : wf NewBroker.
Proof.
  split; simpl; try (intros; simplify_map_eq; fail).
  - constructor.
  - intros c H. by apply elem_of_nil in H.
  - done.
Qed.

Lemma wf_same_registry s s' : same_registry s s' → wf s → wf s'.
Proof.
  intros (Hs & Ha & Hl) [H1 H2 H3 H4 H5 H6 H7].
  split; rewrite ?Hs, ?Ha; eauto.
  - intros k l c Hk Hc. specialize (H2 k l c Hk Hc). lia.
  - intros c Hc. specialize (H5 c Hc). lia.
Qed.

Lemma wf_register eventType s : wf s → wf (register eventType s).2.
Proof.
  intros [H1 H2 H3 H4 H5 H6 H7]. unfold register. simpl.
  case_bool_decide as Hty; simpl.
  - split; simpl; rewrite ?length_app; simpl; eauto.
    + intros k l c Hk Hc. specialize (H2 k l c Hk Hc). lia.
    + apply NoDup_app. split_and!; [done| |apply NoDup_singleton].
      intros c Hc ->%list_elem_of_singleton. apply H5 in Hc. lia.
    + intros c [Hc| ->%list_elem_of_singleton]%elem_of_app; [|lia].
      apply H5 in Hc. lia.
    + intros k l c Hk Hc [Hin| ->%list_elem_of_singleton]%elem_of_app.
      * by eapply H6.
      * specialize (H2 k l _ Hk Hc). lia.
  - assert (∀ k l c, <[eventType := typed s eventType ++ [length (chans s)]]>
                       (subscribers (eb s)) !! k = Some l → c ∈ l →
              (subscribers (eb s) !! k = Some l) ∨
              (k = eventType ∧
               (c ∈ typed s eventType ∨ c = length (chans s)))) as Hcase.
    { intros k l c Hk Hc. destruct (decide (eventType = k)) as [->|Hne].
      - rewrite lookup_insert_eq in Hk. injection Hk as <-.
        right. split; [done|].
        apply elem_of_app in Hc as [?| ->%list_elem_of_singleton]; auto.
      - rewrite lookup_insert_ne in Hk by done. by left. }
    assert (∀ c, c ∈ typed s eventType →
              ∃ l, subscribers (eb s) !! eventType = Some l ∧ c ∈ l) as Hty'.
    { intros c. unfold typed. destruct (subscribers (eb s) !! eventType) as [l|];
        simpl; [eauto|]. by intros ?%elem_of_nil. }
    unfold typed in *. simpl in *.
    split; simpl; rewrite ?length_app; simpl; eauto.
    + intros k l Hk. destruct (decide (eventType = k)) as [->|Hne].
      * rewrite lookup_insert_eq in Hk. injection Hk as <-.
        apply NoDup_app. split_and!; [| |apply NoDup_singleton].
        -- destruct (subscribers (eb s) !! k) as [l|] eqn:E; simpl;
             [by eapply H1|constructor].
        -- intros c (l & Hl & Hc)%Hty' ->%list_elem_of_singleton.
           specialize (H2 _ _ _ Hl Hc). lia.
      * rewrite lookup_insert_ne in Hk by done. by eapply H1.
    + intros k l c Hk Hc.
      destruct (Hcase k l c Hk Hc) as [Hold|[_ [(l' & Hl' & Hc')%Hty'| ->]]].
      * specialize (H2 _ _ _ Hold Hc). lia.
      * specialize (H2 _ _ _ Hl' Hc'). lia.
      * lia.
    + intros k1 k2 l1 l2 c Hk1 Hk2 Hc1 Hc2.
      destruct (Hcase _ _ _ Hk1 Hc1) as [Ho1|[-> Hn1]];
        destruct (Hcase _ _ _ Hk2 Hc2) as [Ho2|[-> Hn2]]; [by eapply H3| | |done].
      * destruct Hn2 as [(l' & Hl' & Hc')%Hty'| ->]; [by eapply H3|].
        specialize (H2 _ _ _ Ho1 Hc1). lia.
      * destruct Hn1 as [(l' & Hl' & Hc')%Hty'| ->]; [by eapply H3|].
        specialize (H2 _ _ _ Ho2 Hc2). lia.
    + intros c Hc. apply H5 in Hc. lia.
    + intros k l c Hk Hc Hall.
      destruct (Hcase _ _ _ Hk Hc) as [Ho|[-> [(l' & Hl' & Hc')%Hty'| ->]]].
      * by eapply H6.
      * by eapply H6.
      * apply H5 in Hall. lia.
    + by rewrite lookup_insert_ne.
Qed.

Lemma same_registry_refl s : same_registry s s.
Proof. by split_and!. Qed.

Lemma exec_registry p : ∀ s s' p' spawned,
  exec s p = Next s' p' spawned →
  same_registry s s' ∨ ∃ eventType, s' = (register eventType s).2.
Proof.
  induction p as [ty|ty|ty|ch|ch|e|e|e rest|e rest| |c e| |callee IH f|ch f|f e ch
                  | | | |rest|rest| | ]; intros s s' p' sp; simpl;
    try (repeat case_match; try done; intros [= <- <- <-]; left;
         split_and!; simpl; rewrite ?length_insert; done).
  - destruct (shuttingDown (eb s)); [|intros [= <- <- <-]; left; by split_and!].
    unfold close; simpl. rewrite lookup_app_r, Nat.sub_diag; [|done]. simpl.
    intros [= <- <- <-]. left. split_and!; simpl; try done.
    rewrite length_insert, length_app. lia.
  - intros H. right. exists ty. destruct (register ty s). by injection H as <- _ _.
  - destruct callee; try (intros [= <- <- <-]; left; by split_and!);
      (destruct (exec s _) as [s1 p1 sp1| | |] eqn:E; [|done..];
       intros [= <- <- <-]; by eapply IH).
  - destruct rest as [|c rest]; [intros [= <- <- <-]; left; by split_and!|].
    destruct (close c s) as [|s1] eqn:E; [done|]. intros [= <- <- <-].
    apply close_inr in E as (x & _ & _ & ->). left.
    split_and!; simpl; rewrite ?length_insert; done.
  - destruct rest as [|c rest]; [intros [= <- <- <-]; left; by split_and!|].
    destruct (close c s) as [|s1] eqn:E; [done|]. intros [= <- <- <-].
    apply close_inr in E as (x & _ & _ & ->). left.
    split_and!; simpl; rewrite ?length_insert; done.
Qed.

Lemma exec_wf s p s' p' spawned :
  wf s → exec s p = Next s' p' spawned → wf s'.
Proof.
  intros Hwf [H|[ty ->]]%exec_registry.
  - by eapply wf_same_registry.
  - by apply wf_register.
Qed.

Lemma evals_wf s p acc r :
  evals s p acc r → wf s → ∀ s' p' spawned, r = Returned s' p' spawned → wf s'.
Proof.
  induction 1 as [s p acc H|s p acc H|s p acc msg H|s p acc s1 p1 sp r H _ IH];
    intros Hwf s' p' spawned; try done.
  - by intros [= <- _ _].
  - apply IH. by eapply exec_wf.
Qed.

Lemma call_wf s p s' p' spawned :
  wf s → call s p = Returned s' p' spawned → wf s'.
Proof. intros Hwf H. eapply evals_wf; [apply evals_call|done|exact H]. Qed.

(** ** Between calls *)

Lemma exec_goroutine p s s' p' spawned :
  goroutine p = true → exec s p = Next s' p' spawned →
  goroutine p' = true ∧ spawned = [] ∧ mu (eb s') = mu (eb s).
Proof.
  destruct p; try done; intros _; simpl.
  - repeat case_match; try done. by intros [= <- <- <-].
  - case_match; [done|]. by intros [= <- <- <-].
  - unfold recv. repeat case_match; try done; by intros [= <- <- <-].
  - by intros [= <- <- <-].
Qed.

Lemma invoke_idle m s s' p spawned :
  idle s → call s (entry m) = Returned s' p spawned →
  idle s' ∧ Forall (λ p, goroutine p = true) spawned.
Proof.
  unfold idle. intros Hi.
  assert (writer (mu (eb s)) = false) as Hw by (by rewrite Hi).
  assert (∀ ty s1 q sp, Subscribe ty s = Returned s1 q sp →
            mu (eb s1) = mkRWMutex false 0 ∧ sp = []) as Hsub.
  { intros ty s1 q sp. destruct (shuttingDown (eb s)) eqn:Hs.
    - rewrite Subscribe_shut by done. by intros [= <- _ <-].
    - rewrite Subscribe_open by done. intros [= <- _ <-].
      unfold register. simpl. by case_bool_decide. }
  destruct m as [ty|e|ty f|]; simpl.
  - intros [? ->]%Hsub. by split.
  - fold (Publish e s). destruct (shuttingDown (eb s)) eqn:Hs.
    + rewrite Publish_shut by done. by intros [= <- _ <-].
    + rewrite Publish_open by done. intros [= <- _ <-]. split; [done|].
      apply Forall_forall. by intros x (c & <- & _)%list_elem_of_In%in_map_iff.
  - fold (SubscribeFunc ty f s).
    destruct (Subscribe ty s) as [s1 q sp| | |] eqn:E.
    + pose proof (Hsub _ _ _ _ E) as [Hmu ->].
      destruct (shuttingDown (eb s)) eqn:Hs.
      * rewrite Subscribe_shut in E by done.
        erewrite SubscribeFunc_returns by (by rewrite Subscribe_shut).
        intros [= <- _ <-]. split; [done|]. by repeat constructor.
      * erewrite SubscribeFunc_returns by (by rewrite Subscribe_open).
        intros [= <- _ <-]. split; [|by repeat constructor].
        unfold register. simpl. by case_bool_decide.
    + destruct (shuttingDown (eb s)) eqn:Hs;
        [by rewrite Subscribe_shut in E|by rewrite Subscribe_open in E].
    + destruct (shuttingDown (eb s)) eqn:Hs;
        [by rewrite Subscribe_shut in E|by rewrite Subscribe_open in E].
    + by apply call_total in E.
  - fold (Shutdown s). rewrite Shutdown_eq. simpl.
    repeat case_match; try done. by intros [= <- _ <-].
Qed.

Lemma reachable_quiet w : reachable w → quiet w.
Proof.
  induction 1 as [|m w w' _ [Hwf Hi Hp] Hinv|i w w' _ [Hwf Hi Hp] Hs].
  - split; [apply wf_NewBroker|done|constructor].
  - unfold invoke in Hinv. destruct (crashed w); [done|].
    destruct (call (st w) (entry m)) as [s' p sp| |msg|] eqn:E; try done.
    + injection Hinv as <-.
      destruct (invoke_idle _ _ _ _ _ Hi E) as [Hi' Hsp].
      split; simpl; [by eapply call_wf|done|by apply Forall_app].
    + by injection Hinv as <-.
  - unfold sched in Hs. destruct (crashed w); [done|].
    destruct (pool w !! i) as [p|] eqn:Hpi; [|done].
    assert (goroutine p = true) as Hg.
    { eapply (proj1 (Forall_forall _ _) Hp), list_elem_of_lookup; eauto. }
    destruct (exec (st w) p) as [s' p' sp| |msg|] eqn:E; try done.
    + injection Hs as <-.
      destruct (exec_goroutine _ _ _ _ _ Hg E) as (Hg' & -> & Heb).
      split; simpl.
      * by eapply exec_wf.
      * unfold idle in *. by rewrite Heb.
      * rewrite app_nil_r. by apply Forall_insert.
    + by injection Hs as <-.
Qed.

Lemma play_reachable acts : ∀ w w',
  forallb sequential acts = true → reachable w → play acts w = Some w' →
  reachable w'.
Proof.
  induction acts as [|a acts IH]; intros w w'; simpl.
  - by intros _ ? [= <-].
  - intros [Ha Hacts]%andb_prop Hw.
    destruct (act a w) as [w1|] eqn:E; [|done].
    apply IH; [done|]. destruct a; simpl in *; try done.
    + by eapply reach_invoke.
    + by eapply reach_sched.
Qed.

(** ** After Shutdown *)

Lemma Shutdown_returned s s1 p spawned :
  Shutdown s = Returned s1 p spawned →
  p = Done ∧ spawned = [] ∧ wg (eb s) = 0 ∧
  ∃ s2, close_list (typed_all s ++ allSubscribers (eb s))
                   (set_mu (mkRWMutex true 0) (set_shuttingDown true s)) = inr s2 ∧
        s1 = set_mu (mkRWMutex false 0) s2.
Proof.
  rewrite Shutdown_eq. simpl.
  destruct (wg (eb s)); [|done].
  destruct (_ || _); [done|].
  destruct (close_list _ _) as [|s2] eqn:E; [done|].
  intros [= <- <- <-]. split_and!; try done. by exists s2.
Qed.

Lemma Shutdown_sets_flag s s1 p spawned :
  Shutdown s = Returned s1 p spawned → shuttingDown (eb s1) = true.
Proof.
  intros (_ & _ & _ & s2 & E & ->)%Shutdown_returned. simpl.
  by rewrite (close_list_eb _ _ _ E).
Qed.

(** The flag is one-way: no action of any goroutine clears it. *)
Lemma exec_flag p : ∀ s s' p' spawned,
  exec s p = Next s' p' spawned →
  shuttingDown (eb s) = true → shuttingDown (eb s') = true.
Proof.
  induction p as [ty|ty|ty|ch|ch|e|e|e rest|e rest| |c e| |callee IH f|ch f|f e ch
                  | | | |rest|rest| | ]; intros s s' p' sp; simpl;
    try (repeat case_match; try done; by intros [= <- <- <-]).
  - destruct (shuttingDown (eb s)) eqn:Hs; [|by intros [= <- <- <-]].
    unfold close; simpl. rewrite lookup_app_r, Nat.sub_diag; [|done]. simpl.
    by intros [= <- <- <-].
  - unfold register. simpl. case_bool_decide; simpl; by intros [= <- <- <-].
  - destruct callee; try (by intros [= <- <- <-]);
      (destruct (exec s _) as [s1 p1 sp1| | |] eqn:E; [|done..];
       intros [= <- <- <-]; by eapply IH).
  - destruct rest as [|c rest]; [by intros [= <- <- <-]|].
    destruct (close c s) as [|s1] eqn:E; [done|]. intros [= <- <- <-].
    by apply close_inr in E as (x & _ & _ & ->).
  - destruct rest as [|c rest]; [by intros [= <- <- <-]|].
    destruct (close c s) as [|s1] eqn:E; [done|]. intros [= <- <- <-].
    by apply close_inr in E as (x & _ & _ & ->).
Qed.

Lemma later_flag s s' :
  later s s' → shuttingDown (eb s) = true → shuttingDown (eb s') = true.
Proof.
  induction 1 as [|s p s1 p1 sp s' H _ IH]; [done|].
  intros Hs. apply IH. by eapply exec_flag.
Qed.

(** C4: once Shutdown has returned, in the state it left and in every state
    that comes later, Publish returns at once with the state as it was and
    starts no delivery: no channel, registered before or handed out since,
    gets the event, and nothing panics. *)
Theorem Publish_after_Shutdown s0 s1 p spawned s event :
  Shutdown s0 = Returned s1 p spawned → later s1 s →
  Publish event s = Returned s Done [].
Proof.
  intros Hflag%Shutdown_sets_flag Hlater.
  apply Publish_shut. by eapply later_flag.
Qed.

Lemma late_subscriber_later : later one_subscriber_shut late_subscriber.
Proof.
  eapply (later_step _ (Subscribe_load "another.event") late_subscriber (Return 1) []);
    [vm_compute; reflexivity|apply later_now].
Defined.

Lemma Publish_after_Shutdown_witness :
  Publish (event_of "e1" "test.event") late_subscriber =
    Returned late_subscriber Done [].
Proof.
  apply (Publish_after_Shutdown one_subscriber one_subscriber_shut Done []).
  - vm_compute. reflexivity.
  - exact late_subscriber_later.
Defined.

(** C5: once Shutdown has returned, in the state it left and in every state
    that comes later, Subscribe, for any event type, returns a channel that
    is closed and empty and registers nothing; a receive on it reports end of
    stream without waiting, and a consumer loop over it exits at its first
    step. *)
Theorem Subscribe_after_Shutdown s0 s1 p spawned s eventType :
  Shutdown s0 = Returned s1 p spawned → later s1 s →
  ∃ s2 ch c,
    Subscribe eventType s = Returned s2 (Return ch) [] ∧
    chans s2 !! ch = Some c ∧ closed c = true ∧ buf c = [] ∧
    recv c = EndOfStream ∧
    eb s2 = eb s ∧
    ∀ f, exec s2 (Range ch f) = Next s2 Done [].
Proof.
  intros Hflag%Shutdown_sets_flag Hlater.
  pose proof (later_flag _ _ Hlater Hflag) as Hs.
  eexists _, _, (mkChan 0 [] true).
  split; [by apply Subscribe_shut|].
  assert (∀ (l : list Chan) x, (l ++ [x]) !! length l = Some x) as Hl.
  { intros l x. by rewrite lookup_app_r, Nat.sub_diag. }
  split_and!; simpl; try done.
  intros f. by rewrite Hl.
Qed.

Lemma Subscribe_after_Shutdown_witness :
  ∃ s2 ch c,
    Subscribe "*" late_subscriber = Returned s2 (Return ch) [] ∧
    chans s2 !! ch = Some c ∧ closed c = true ∧ buf c = [] ∧
    recv c = EndOfStream ∧
    eb s2 = eb late_subscriber ∧
    ∀ f, exec s2 (Range ch f) = Next s2 Done [].
Proof.
  apply (Subscribe_after_Shutdown one_subscriber one_subscriber_shut Done []).
  - vm_compute. reflexivity.
  - exact late_subscriber_later.
Defined.

(** ** CloudEventForwarder *)

(** C10: applied to [e], the function returned by CloudEventForwarder calls
    the sender once, with the background context and [e] itself, and does
    nothing else: the world changes as that one call changes it, and the
    sender saw exactly that call. *)
Theorem CloudEventForwarder_sends_once {W : Type} (send : CloudEventSender W)
    (e : Event) (w : W) (got : list (Context * Event)) :
  CloudEventForwarder send e w = send Background e w ∧
  CloudEventForwarder (traced send) e (w, got) =
    (send Background e w, got ++ [(Background, e)]) ∧
  CloudEventForwarder mockSender e got = got ++ [(Background, e)].
Proof. by split_and!. Qed.

(** ** Fan-out *)

Lemma typed_elem s k q :
  q ∈ typed s k ↔ ∃ l, subscribers (eb s) !! k = Some l ∧ q ∈ l.
Proof.
  unfold typed. destruct (subscribers (eb s) !! k) as [l|]; simpl.
  - split; [eauto|]. by intros (l' & [= <-] & ?).
  - split; [by intros ?%elem_of_nil|]. by intros (l' & [=] & _).
Qed.

Lemma targets_NoDup s event : wf s → NoDup (targets s event).
Proof.
  intros Hwf. unfold targets. apply NoDup_app. split_and!.
  - unfold typed. destruct (subscribers (eb s) !! Type_ event) as [l|] eqn:E; simpl.
    + by eapply wf_typed_nodup.
    + constructor.
  - intros q (l & Hl & Hq)%typed_elem. by eapply wf_typed_all.
  - by apply wf_all_nodup.
Qed.

Lemma targets_elem s event q :
  wf s →
  q ∈ targets s event ↔
  subscribed s q (Type_ event) ∨ subscribed s q "*".
Proof.
  intros Hwf. unfold targets, subscribed. rewrite elem_of_app.
  rewrite (bool_decide_eq_true_2 ("*"%string = "*"%string)) by done.
  case_bool_decide as Hty; [|done].
  rewrite Hty. unfold typed. rewrite (wf_star _ Hwf). simpl.
  split; [intros [[]%elem_of_nil|?]|intros [?|?]]; auto.
Qed.

Lemma targets_other s event q eventType :
  wf s → subscribed s q eventType →
  eventType ≠ Type_ event → eventType ≠ "*"%string →
  q ∉ targets s event.
Proof.
  intros Hwf Hsub Hne Hstar. unfold subscribed in Hsub.
  rewrite bool_decide_eq_false_2 in Hsub by done.
  apply typed_elem in Hsub as (l & Hl & Hq).
  unfold targets. rewrite elem_of_app. intros [(l' & Hl' & Hq')%typed_elem|Hall].
  - apply Hne. by eapply (wf_typed_disj _ Hwf).
  - by eapply (wf_typed_all _ Hwf).
Qed.

(** The delivery goroutine, when its channel is open and has room: the event
    itself goes to the tail of the buffer. *)
Lemma exec_Send s q event c :
  chans s !! q = Some c → closed c = false → length (buf c) < cap c →
  ∃ s', exec s (Send q event) = Next s' Send_done [] ∧
        buf_of s' q = buf c ++ [event] ∧ eb s' = eb s.
Proof.
  intros Hq Hcl Hlen. simpl. rewrite Hq, Hcl.
  rewrite (proj2 (Nat.ltb_lt _ _) Hlen).
  eexists. split_and!; [done| |done].
  unfold buf_of. simpl.
  by rewrite list_lookup_insert_eq by (by eapply lookup_lt_Some).
Qed.

(** C1, as it holds: in every state between calls in which the flag
    shuttingDown is clear, Publish returns after starting one delivery
    goroutine for each channel registered under the type string of the
    event and for each wildcard channel, each carrying the event itself;
    no channel is served twice, a channel registered under another type is
    not served, and Publish itself writes to no channel.  A delivery that gets
    to run on an open channel with room puts that event at the tail. *)
Theorem Publish_fanout w event :
  reachable w → shuttingDown (eb (st w)) = false →
  ∃ s',
    Publish event (st w) =
      Returned s' Done (map (λ q, Send q event) (targets (st w) event)) ∧
    NoDup (targets (st w) event) ∧
    (∀ q, q ∈ targets (st w) event ↔
          subscribed (st w) q (Type_ event) ∨ subscribed (st w) q "*") ∧
    (∀ q eventType, subscribed (st w) q eventType →
          eventType ≠ Type_ event → eventType ≠ "*"%string →
          q ∉ targets (st w) event) ∧
    chans s' = chans (st w) ∧
    (∀ s1 q c, chans s1 !! q = Some c → closed c = false →
          length (buf c) < cap c →
          ∃ s2, exec s1 (Send q event) = Next s2 Send_done [] ∧
                buf_of s2 q = buf c ++ [event]).
Proof.
  intros [Hwf Hi _]%reachable_quiet Hopen.
  eexists. split_and!.
  - apply Publish_open; [done|]. by rewrite Hi.
  - by apply targets_NoDup.
  - intros q. by apply targets_elem.
  - intros q ty. by apply targets_other.
  - done.
  - intros s1 q c H1 H2 H3.
    destruct (exec_Send s1 q event c H1 H2 H3) as (s2 & ? & ? & _). eauto.
Qed.

Lemma scenario_B_reachable : reachable (after scenario_B).
Proof.
  apply (play_reachable scenario_B NewWorld);
    [vm_compute; reflexivity|apply reach_init|vm_compute; reflexivity].
Defined.

Lemma Publish_fanout_witness :
  ∃ s',
    Publish (event_of "e1" "a") (st (after scenario_B)) =
      Returned s' Done
        (map (λ q, Send q (event_of "e1" "a"))
             (targets (st (after scenario_B)) (event_of "e1" "a"))) ∧
    NoDup (targets (st (after scenario_B)) (event_of "e1" "a")) ∧
    (∀ q, q ∈ targets (st (after scenario_B)) (event_of "e1" "a") ↔
          subscribed (st (after scenario_B)) q (Type_ (event_of "e1" "a")) ∨
          subscribed (st (after scenario_B)) q "*") ∧
    (∀ q eventType, subscribed (st (after scenario_B)) q eventType →
          eventType ≠ Type_ (event_of "e1" "a") → eventType ≠ "*"%string →
          q ∉ targets (st (after scenario_B)) (event_of "e1" "a")) ∧
    chans s' = chans (st (after scenario_B)) ∧
    (∀ s1 q c, chans s1 !! q = Some c → closed c = false →
          length (buf c) < cap c →
          ∃ s2, exec s1 (Send q (event_of "e1" "a")) = Next s2 Send_done [] ∧
                buf_of s2 q = buf c ++ [event_of "e1" "a"]).
Proof.
  apply (Publish_fanout (after scenario_B) (event_of "e1" "a")).
  - exact scenario_B_reachable.
  - vm_compute. reflexivity.
Defined.

(** Scenario B evaluated: the event of type "a" goes to channel 0 (the
    subscriber of "a") and to channel 2 (the wildcard subscriber), not to
    channel 1 (the subscriber of "b"). *)
Example scenario_B_targets :
  targets (st (after scenario_B)) (event_of "e1" "a") = [0; 2].
Proof. vm_compute. reflexivity. Qed.

(** C1 as stated fails in a state whose flag is set: channel 0 is registered
    under "a", an event of type "a" is published, and no delivery starts. *)
Lemma Publish_fanout_not_after_Shutdown :
  reachable (after subscribed_then_shut) ∧
  subscribed (st (after subscribed_then_shut)) 0 "a" ∧
  Publish (event_of "e1" "a") (st (after subscribed_then_shut)) =
    Returned (st (after subscribed_then_shut)) Done [] ∧
  ¬ (∃ s', Publish (event_of "e1" "a") (st (after subscribed_then_shut)) =
             Returned s' Done
               (map (λ q, Send q (event_of "e1" "a"))
                    (targets (st (after subscribed_then_shut)) (event_of "e1" "a")))).
Proof.
  split_and!.
  - apply (play_reachable subscribed_then_shut NewWorld);
      [vm_compute; reflexivity|apply reach_init|vm_compute; reflexivity].
  - vm_compute. apply list_elem_of_here.
  - vm_compute. reflexivity.
  - intros [s' H]. vm_compute in H. discriminate H.
Qed.

(** C9: the map never has the key ["*"]: Subscribe("*") leaves the map as it
    is and, while the flag is clear, appends its channel to the wildcard
    list; an event whose type is the string ["*"] is therefore dispatched
    once to each wildcard channel and to nothing else. *)
Theorem wildcard_is_not_a_key w event :
  reachable w → Type_ event = "*"%string → shuttingDown (eb (st w)) = false →
  subscribers (eb (st w)) !! "*"%string = None ∧
  (∃ s1 ch,
     Subscribe "*" (st w) = Returned s1 (Return ch) [] ∧
     subscribers (eb s1) = subscribers (eb (st w)) ∧
     allSubscribers (eb s1) = allSubscribers (eb (st w)) ++ [ch]) ∧
  (∃ s2,
     Publish event (st w) =
       Returned s2 Done (map (λ q, Send q event) (allSubscribers (eb (st w)))) ∧
     NoDup (allSubscribers (eb (st w)))).
Proof.
  intros [Hwf Hi _]%reachable_quiet Hty Hopen. split_and!.
  - by apply wf_star.
  - eexists _, _. split; [by apply Subscribe_open|].
    unfold register. simpl. done.
  - eexists. split; [|by apply wf_all_nodup].
    rewrite Publish_open; [|done|by rewrite Hi].
    unfold targets, typed. rewrite Hty, (wf_star _ Hwf). simpl. reflexivity.
Qed.

Lemma wildcard_is_not_a_key_witness :
  subscribers (eb (st (after scenario_B))) !! "*"%string = None ∧
  (∃ s1 ch,
     Subscribe "*" (st (after scenario_B)) = Returned s1 (Return ch) [] ∧
     subscribers (eb s1) = subscribers (eb (st (after scenario_B))) ∧
     allSubscribers (eb s1) = allSubscribers (eb (st (after scenario_B))) ++ [ch]) ∧
  (∃ s2,
     Publish (event_of "e2" "*") (st (after scenario_B)) =
       Returned s2 Done
         (map (λ q, Send q (event_of "e2" "*"))
              (allSubscribers (eb (st (after scenario_B))))) ∧
     NoDup (allSubscribers (eb (st (after scenario_B))))).
Proof.
  apply (wildcard_is_not_a_key (after scenario_B) (event_of "e2" "*")).
  - exact scenario_B_reachable.
  - reflexivity.
  - vm_compute. reflexivity.
Defined.

(** ** Shutdown, twice *)

Lemma close_keeps_closed c s s' q x :
  close c s = inr s' → chans s !! q = Some x → closed x = true →
  ∃ x', chans s' !! q = Some x' ∧ closed x' = true.
Proof.
  intros (c0 & Hc & Hcl & ->)%close_inr Hq Hx. simpl.
  destruct (decide (c = q)) as [->|Hne].
  - rewrite Hq in Hc. injection Hc as ->. congruence.
  - rewrite list_lookup_insert_ne by done. eauto.
Qed.

Lemma close_list_keeps_closed l : ∀ s s' q x,
  close_list l s = inr s' → chans s !! q = Some x → closed x = true →
  ∃ x', chans s' !! q = Some x' ∧ closed x' = true.
Proof.
  induction l as [|c l IH]; intros s s' q x; simpl.
  - intros [= <-]. eauto.
  - destruct (close c s) as [|s1] eqn:E; [done|]. intros Hl Hq Hx.
    destruct (close_keeps_closed _ _ _ _ _ E Hq Hx) as (x1 & Hq1 & Hx1).
    by eapply IH.
Qed.

Lemma close_list_head c l s s' :
  close_list (c :: l) s = inr s' →
  ∃ x, chans s' !! c = Some x ∧ closed x = true.
Proof.
  simpl. destruct (close c s) as [|s1] eqn:E; [done|]. intros Hl.
  apply close_inr in E as (c0 & Hc & _ & ->).
  eapply (close_list_keeps_closed _ _ _ c); [exact Hl| |]; simpl.
  - by rewrite list_lookup_insert_eq by (by eapply lookup_lt_Some).
  - done.
Qed.

(** A second Shutdown, with any channel in the registry, closes a closed
    channel. *)
Lemma Shutdown_twice_panics s s1 p spawned :
  typed_all s ++ allSubscribers (eb s) ≠ [] →
  Shutdown s = Returned s1 p spawned →
  Shutdown s1 = Panicked "close of closed channel".
Proof.
  intros Hne (_ & _ & Hwg & s2 & E & ->)%Shutdown_returned.
  pose proof (close_list_eb _ _ _ E) as Heb. simpl in Heb.
  rewrite Shutdown_eq. simpl. rewrite Heb. simpl. rewrite Hwg.
  unfold typed_all in *. simpl. rewrite Heb. simpl.
  destruct (concat _ ++ allSubscribers (eb s)) as [|c l] eqn:El; [done|].
  destruct (close_list_head _ _ _ _ E) as (x & Hx & Hcl).
  simpl. unfold close. simpl. by rewrite Hx, Hcl.
Qed.

(** C2, as it holds: with no channel in the registry, a second Shutdown
    returns and leaves the state in which the first one ended. *)
Theorem Shutdown_twice_no_queue s s1 p spawned :
  typed_all s = [] → allSubscribers (eb s) = [] →
  Shutdown s = Returned s1 p spawned →
  Shutdown s1 = Returned s1 Done [].
Proof.
  intros Ht Ha (_ & _ & Hwg & s2 & E & ->)%Shutdown_returned.
  rewrite Ht, Ha in E. simpl in E. injection E as <-.
  rewrite Shutdown_eq. unfold typed_all in *. simpl.
  rewrite Hwg, Ht, Ha. simpl. reflexivity.
Qed.

Lemma Shutdown_twice_no_queue_witness :
  Shutdown (state_of (Shutdown NewBroker)) =
    Returned (state_of (Shutdown NewBroker)) Done [].
Proof.
  apply (Shutdown_twice_no_queue NewBroker (state_of (Shutdown NewBroker)) Done []);
    vm_compute; reflexivity.
Defined.

(** C2 as stated fails with one subscriber: the first Shutdown returns, the
    second one panics. *)
Lemma Shutdown_twice_closes_twice :
  Shutdown one_subscriber = Returned one_subscriber_shut Done [] ∧
  Shutdown one_subscriber_shut = Panicked "close of closed channel".
Proof. split; vm_compute; reflexivity. Qed.

(** ** SubscribeFunc *)

(** C8: SubscribeFunc returns what Subscribe returns it, after starting one
    consumer loop over the channel Subscribe handed out.  Whenever that loop
    runs, from any state [s2], it receives the buffered events oldest first
    and calls [f] once with each; with the buffer drained it exits if the
    channel is closed and waits otherwise; a loop that has exited does
    nothing more. *)
Theorem SubscribeFunc_consumes eventType f s s1 ch spawned s2 c :
  Subscribe eventType s = Returned s1 (Return ch) spawned →
  chans s2 !! ch = Some c →
  SubscribeFunc eventType f s = Returned s1 Done (spawned ++ [Range ch f]) ∧
  call s2 (Range ch f) =
    (if closed c then Returned (consume ch f c s2) Done []
     else Stuck (consume ch f c s2) (Range ch f) []) ∧
  calls (consume ch f c s2) = calls s2 ++ map (pair f) (buf c) ∧
  buf_of (consume ch f c s2) ch = [] ∧
  (∀ s3, exec s3 Done = Halted).
Proof.
  intros Hsub Hc. split_and!.
  - by apply SubscribeFunc_returns.
  - destruct (closed c) eqn:Hcl; [by apply Range_closed|by apply Range_open].
  - done.
  - unfold buf_of, consume. simpl.
    by rewrite list_lookup_insert_eq by (by eapply lookup_lt_Some).
  - done.
Qed.

Lemma SubscribeFunc_consumes_witness :
  SubscribeFunc "a" 7 NewBroker =
    Returned (state_of (Subscribe "a" NewBroker)) Done ([] ++ [Range 0 7]) ∧
  call two_buffered (Range 0 7) =
    Returned (consume 0 7 (mkChan 10 [event_of "e1" "a"; event_of "e2" "a"] true)
                      two_buffered) Done [] ∧
  calls (consume 0 7 (mkChan 10 [event_of "e1" "a"; event_of "e2" "a"] true)
                 two_buffered) =
    calls two_buffered ++ map (pair 7) [event_of "e1" "a"; event_of "e2" "a"] ∧
  buf_of (consume 0 7 (mkChan 10 [event_of "e1" "a"; event_of "e2" "a"] true)
                  two_buffered) 0 = [] ∧
  (∀ s3, exec s3 Done = Halted).
Proof.
  apply (SubscribeFunc_consumes "a" 7 NewBroker (state_of (Subscribe "a" NewBroker))
           0 [] two_buffered
           (mkChan 10 [event_of "e1" "a"; event_of "e2" "a"] true));
    vm_compute; reflexivity.
Defined.

(** ** Order of arrival *)

(** The delivery goroutine run from start to end. *)
Lemma call_Send_eq s q event :
  call s (Send q event) =
    match chans s !! q with
    | None => Stuck s (Send q event) []
    | Some c =>
        if closed c then Panicked "send on closed channel"
        else if Nat.ltb (length (buf c)) (cap c) then
          match wg (eb s) with
          | 0 => Panicked "sync: negative WaitGroup counter"
          | S n =>
              Returned
                (set_wg n (set_chans
                   (<[q := mkChan (cap c) (buf c ++ [event]) false]> (chans s)) s))
                Done []
          end
        else Stuck s (Send q event) []
    end.
Proof.
  apply call_evals.
  destruct (chans s !! q) as [c|] eqn:Hq.
  2: { apply evals_block. simpl. by rewrite Hq. }
  destruct (closed c) eqn:Hcl.
  { apply evals_panic. simpl. by rewrite Hq, Hcl. }
  destruct (Nat.ltb (length (buf c)) (cap c)) eqn:Hroom.
  2: { apply evals_block. simpl. by rewrite Hq, Hcl, Hroom. }
  eapply evals_next; [simpl; rewrite Hq, Hcl, Hroom; reflexivity|].
  destruct (wg (eb s)) as [|n] eqn:Hwg.
  { apply evals_panic. simpl. by rewrite Hwg. }
  eapply evals_next; [simpl; rewrite Hwg; reflexivity|].
  by apply evals_halt.
Qed.

(** [receive] is the receive of the consumer loop. *)
Lemma receive_Range ch s event s' f :
  receive ch s = Some (event, s') →
  exec s (Range ch f) = Next s' (Call f event ch) [].
Proof.
  unfold receive. simpl. destruct (chans s !! ch) as [c|]; [|done].
  destruct (recv c); [|done..]. by intros [= <- <-].
Qed.

Lemma in_turn_order q ops : ∀ s got0 s' got,
  (∀ event, Pub event ∈ ops → targets s event = [q]) →
  shuttingDown (eb s) = false →
  in_turn q ops s got0 = Some (s', got) →
  got ++ buf_of s' q = got0 ++ buf_of s q ++ published ops.
Proof.
  induction ops as [|[event|] ops IH]; intros s got0 s' got Ht Hopen; simpl.
  - intros [= <- <-]. by rewrite app_nil_r.
  - destruct (writer (mu (eb s))) eqn:Hw; [by rewrite Publish_busy|].
    rewrite Publish_open by done.
    rewrite (Ht event) by apply list_elem_of_here. simpl.
    rewrite call_Send_eq. simpl.
    destruct (chans s !! q) as [c|] eqn:Hq; [|done].
    destruct (closed c); [done|].
    destruct (Nat.ltb _ _); [|done].
    rewrite Nat.add_1_r. intros H.
    apply IH in H.
    + rewrite H. unfold buf_of. simpl.
      rewrite list_lookup_insert_eq by (by eapply lookup_lt_Some).
      rewrite Hq. simpl. by rewrite <- !app_assoc.
    + intros e He. rewrite <- (Ht e) by (by apply list_elem_of_further).
      reflexivity.
    + done.
  - unfold receive. destruct (chans s !! q) as [c|] eqn:Hq; [|done].
    unfold recv. destruct (buf c) as [|e rest] eqn:Hb; [by destruct (closed c)|].
    intros H. apply IH in H.
    + rewrite H. unfold buf_of. simpl.
      rewrite list_lookup_insert_eq by (by eapply lookup_lt_Some).
      rewrite Hq, Hb. simpl. by rewrite <- !app_assoc.
    + intros e' He. rewrite <- (Ht e') by (by apply list_elem_of_further).
      reflexivity.
    + done.
Qed.

(** C3, as it holds: when the delivery started by each Publish call has
    put its event into the channel before the next Publish call begins, the
    events arrive in the order of the calls: what the consumer has received
    followed by what is still buffered is what was buffered at the start
    followed by the published events, in publish order. *)
Theorem delivery_in_publish_order q ops s s' got :
  (∀ event, Pub event ∈ ops → targets s event = [q]) →
  shuttingDown (eb s) = false →
  in_turn q ops s [] = Some (s', got) →
  got ++ buf_of s' q = buf_of s q ++ published ops.
Proof. intros Ht Hopen H. by apply (in_turn_order q ops s []). Qed.

Lemma delivery_in_publish_order_witness :
  three_in_turn_end.2 ++ buf_of three_in_turn_end.1 0 =
  buf_of (state_of (Subscribe "a" NewBroker)) 0 ++ published three_in_turn.
Proof.
  apply (delivery_in_publish_order 0 three_in_turn
           (state_of (Subscribe "a" NewBroker))).
  - intros event Hin. unfold three_in_turn in Hin.
    repeat (apply elem_of_cons in Hin as [Hin|Hin];
            [simplify_eq; vm_compute; reflexivity|]).
    by apply elem_of_nil in Hin.
  - reflexivity.
  - vm_compute. reflexivity.
Defined.

Example three_in_turn_received :
  three_in_turn_end.2 = [event_of "e1" "a"] ∧
  buf_of three_in_turn_end.1 0 = [event_of "e2" "a"; event_of "e3" "a"].
Proof. split; vm_compute; reflexivity. Qed.

(** C3 as stated fails: the Publish calls do not overlap, there is one
    subscriber, and the event published second is in front. *)
Lemma second_published_first_delivered :
  reachable (after second_overtakes) ∧
  pool (after (take 3 second_overtakes)) =
    [Send 0 (event_of "e1" "a"); Send 0 (event_of "e2" "a")] ∧
  buf_of (st (after second_overtakes)) 0 =
    [event_of "e2" "a"; event_of "e1" "a"].
Proof.
  split_and!.
  - apply (play_reachable second_overtakes NewWorld);
      [vm_compute; reflexivity|apply reach_init|vm_compute; reflexivity].
  - vm_compute. reflexivity.
  - vm_compute. reflexivity.
Qed.

(** ** What the counter and the flag guarantee between calls *)

(** In any run at all, overlapping calls included, the registry stays well
    formed. *)
Lemma play_wf acts : ∀ w w',
  wf (st w) → play acts w = Some w' → wf (st w').
Proof.
  induction acts as [|a acts IH]; intros w w' Hwf; simpl.
  - by intros [= <-].
  - destruct (act a w) as [w1|] eqn:E; [|done]. apply IH.
    destruct a as [m|m|i]; simpl in E.
    + unfold invoke in E. destruct (crashed w); [done|].
      destruct (call (st w) (entry m)) as [s' p sp| |msg|] eqn:Ec; try done;
        injection E as <-; simpl; [by eapply call_wf|done].
    + unfold start in E. destruct (crashed w); [done|]. by injection E as <-.
    + unfold sched in E. destruct (crashed w); [done|].
      destruct (pool w !! i) as [p|]; [|done].
      destruct (exec (st w) p) as [s' p' sp| |msg|] eqn:Ee; try done;
        injection E as <-; simpl; [by eapply exec_wf|done].
Qed.

Lemma star_is_never_a_key acts w :
  play acts NewWorld = Some w → subscribers (eb (st w)) !! "*"%string = None.
Proof.
  intros H. eapply wf_star, (play_wf acts NewWorld); [apply wf_NewBroker|exact H].
Qed.

Lemma exec_goroutine_routing p s s' p' spawned :
  goroutine p = true → exec s p = Next s' p' spawned → same_routing s s'.
Proof.
  destruct p; try done; intros _; simpl.
  - repeat case_match; try done. by intros [= <- <- <-].
  - case_match; [done|]. by intros [= <- <- <-].
  - unfold recv. repeat case_match; try done; by intros [= <- <- <-].
  - by intros [= <- <- <-].
Qed.

(** When calls do not overlap, nothing is registered once the flag is set:
    no call and no goroutine step changes the map or the wildcard list. *)
Lemma registry_frozen_by_flag w w' :
  reachable w → shuttingDown (eb (st w)) = true →
  (∃ m, invoke m w = Some w') ∨ (∃ i, sched i w = Some w') →
  same_routing (st w) (st w').
Proof.
  intros [Hwf Hi Hp]%reachable_quiet Hflag [[m H]|[i H]].
  - unfold invoke in H. destruct (crashed w); [done|].
    destruct (call (st w) (entry m)) as [s' p sp| |msg|] eqn:E; try done;
      injection H as <-; simpl; [|done].
    destruct m as [ty|e|ty f|]; simpl in E.
    + fold (Subscribe ty (st w)) in E. rewrite Subscribe_shut in E by done.
      by injection E as <- _ _.
    + fold (Publish e (st w)) in E. rewrite Publish_shut in E by done.
      by injection E as <- _ _.
    + fold (SubscribeFunc ty f (st w)) in E.
      erewrite SubscribeFunc_returns in E by (by apply Subscribe_shut).
      by injection E as <- _ _.
    + fold (Shutdown (st w)) in E.
      apply Shutdown_returned in E as (_ & _ & _ & s2 & E & ->).
      apply close_list_eb in E. unfold same_routing. simpl. rewrite E. simpl.
      by rewrite Hflag.
  - unfold sched in H. destruct (crashed w); [done|].
    destruct (pool w !! i) as [p|] eqn:Hpi; [|done].
    assert (goroutine p = true) as Hg.
    { eapply (proj1 (Forall_forall _ _) Hp), list_elem_of_lookup; eauto. }
    destruct (exec (st w) p) as [s' p' sp| |msg|] eqn:E; try done;
      injection H as <-; simpl; [|done].
    by eapply exec_goroutine_routing.
Qed.

Lemma pending_count_app l1 l2 :
  pending_count (l1 ++ l2) = pending_count l1 + pending_count l2.
Proof. induction l1 as [|p l1 IH]; simpl; [done|]. rewrite IH. lia. Qed.

Lemma pending_count_insert l : ∀ i x y,
  l !! i = Some x →
  pending_count (<[i := y]> l) + (if pending x then 1 else 0) =
  pending_count l + (if pending y then 1 else 0).
Proof.
  induction l as [|p l IH]; intros [|i] x y; simpl; try done.
  - intros [= ->]. lia.
  - intros H. specialize (IH i x y H). lia.
Qed.

Lemma pending_count_elem l p :
  p ∈ l → pending p = true → 0 < pending_count l.
Proof.
  induction 1 as [p l|p p' l _ IH]; simpl; intros Hp.
  - rewrite Hp. lia.
  - specialize (IH Hp). lia.
Qed.

Lemma pending_count_Send e l :
  pending_count (map (λ q, Send q e) l) = length l.
Proof. induction l as [|q l IH]; simpl; [done|]. by rewrite IH. Qed.

Lemma elem_of_insert_inv (l : list pc) i y x :
  x ∈ <[i := y]> l → x = y ∨ x ∈ l.
Proof.
  revert i. induction l as [|p l IH]; intros [|i]; simpl; auto.
  - intros [->|?]%elem_of_cons; [by left|]. right. by apply list_elem_of_further.
  - intros [->|H]%elem_of_cons.
    + right. apply list_elem_of_here.
    + destruct (IH _ H) as [->|?]; [by left|]. right. by apply list_elem_of_further.
Qed.

Lemma close_list_inl l : ∀ s msg,
  close_list l s = inl msg →
  msg = "close of nil channel"%string ∨ msg = "close of closed channel"%string.
Proof.
  induction l as [|c l IH]; intros s msg; simpl; [done|].
  destruct (close c s) as [m|s1] eqn:E; [|by apply IH].
  intros [= <-]. unfold close in E. repeat case_match; simplify_eq; auto.
Qed.

Lemma close_list_closes l : ∀ s s' q,
  close_list l s = inr s' → q ∈ l → is_closed s' q.
Proof.
  induction l as [|c l IH]; intros s s' q Hl Hq; [by apply elem_of_nil in Hq|].
  apply elem_of_cons in Hq as [->|Hq].
  - by eapply close_list_head.
  - simpl in Hl. destruct (close c s) as [|s1]; [done|]. by eapply IH.
Qed.

Lemma elem_of_concat (q : nat) (ls : list (list nat)) :
  q ∈ concat ls ↔ ∃ l, q ∈ l ∧ l ∈ ls.
Proof.
  induction ls as [|l0 ls IH]; simpl.
  - split; [by intros ?%elem_of_nil|]. by intros (l & _ & ?%elem_of_nil).
  - rewrite elem_of_app, IH. split.
    + intros [H|(l & Hq & Hl)].
      * exists l0. split; [done|apply list_elem_of_here].
      * exists l. split; [done|by apply list_elem_of_further].
    + intros (l & Hq & [->|Hl]%elem_of_cons); [by left|]. right. by exists l.
Qed.

Lemma registered_typed_all s q :
  registered s q ↔ q ∈ typed_all s ++ allSubscribers (eb s).
Proof.
  unfold registered, typed_all. rewrite elem_of_app, elem_of_concat.
  f_equiv. split.
  - intros (k & l & Hk & Hq). exists l. split; [done|].
    apply list_elem_of_In, in_map_iff. exists (k, l). split; [done|].
    by apply list_elem_of_In, elem_of_map_to_list.
  - intros (l & Hq & Hl).
    apply list_elem_of_In, in_map_iff in Hl as ([k l'] & <- & Hkl).
    apply list_elem_of_In, elem_of_map_to_list in Hkl. by exists k, l'.
Qed.

(** When Shutdown returns, every channel of the registry is closed. *)
Lemma Shutdown_closes_all s s1 p spawned q :
  Shutdown s = Returned s1 p spawned → registered s1 q → is_closed s1 q.
Proof.
  intros (_ & _ & _ & s2 & E & ->)%Shutdown_returned Hq.
  pose proof (close_list_eb _ _ _ E) as Heb.
  assert (registered s q) as Hq'.
  { unfold registered in *. simpl in *. by rewrite Heb in Hq. }
  apply registered_typed_all in Hq'.
  destruct (close_list_closes _ _ _ q E Hq') as (c & Hc & Hcl).
  by exists c.
Qed.

Lemma targets_registered s event q : q ∈ targets s event → registered s q.
Proof.
  unfold targets, registered. rewrite elem_of_app, typed_elem.
  intros [(l & ? & ?)|?]; [left; eauto|by right].
Qed.

Lemma registered_register eventType s q :
  registered (register eventType s).2 q ↔ registered s q ∨ q = length (chans s).
Proof.
  unfold registered, register. simpl. case_bool_decide as Hty; simpl.
  - rewrite elem_of_app, list_elem_of_singleton. tauto.
  - split.
    + intros [(k & l & Hk & Hq)|?]; [|by left; right].
      destruct (decide (eventType = k)) as [->|Hne].
      * rewrite lookup_insert_eq in Hk. injection Hk as <-.
        apply elem_of_app in Hq as [Hq|Hq%list_elem_of_singleton]; [|by right].
        apply typed_elem in Hq as (l & ? & ?). left; left; eauto.
      * rewrite lookup_insert_ne in Hk by done. left; left; eauto.
    + intros [[(k & l & Hk & Hq)|?]| ->]; [|by right|].
      * left. destruct (decide (eventType = k)) as [->|Hne].
        -- eexists k, _. rewrite lookup_insert_eq. split; [done|].
           apply elem_of_app. left. apply typed_elem. eauto.
        -- exists k, l. by rewrite lookup_insert_ne.
      * left. eexists eventType, _. rewrite lookup_insert_eq. split; [done|].
        apply elem_of_app. right. by apply list_elem_of_singleton.
Qed.

Lemma registered_bound s q : wf s → registered s q → q < length (chans s).
Proof.
  intros Hwf [(k & l & Hk & Hq)|Hq].
  - by eapply wf_typed_bound.
  - by eapply wf_all_bound.
Qed.

Lemma is_closed_app s q h :
  q < length (chans s) →
  is_closed (set_chans (chans s ++ h) s) q → is_closed s q.
Proof.
  intros Hq (c & Hc & Hcl). exists c. split; [|done].
  simpl in Hc. by rewrite lookup_app_l in Hc.
Qed.

Lemma orderly_NewWorld : orderly NewWorld.
Proof.
  split; simpl; try done.
  - by intros q e ?%elem_of_nil.
  - intros q [(k & l & Hk & _)|?%elem_of_nil]; [|done]. by simplify_map_eq.
Qed.

Lemma orderly_invoke m w w' :
  quiet w → orderly w → invoke m w = Some w' → orderly w'.
Proof.
  intros [Hwf Hi _] [Hwg Hsends Hclosed Hcrash]. unfold invoke.
  destruct (crashed w); [done|].
  assert (writer (mu (eb (st w))) = false) as Hw by (by rewrite Hi).
  assert (∀ s' sp, (∀ q, registered (st w) q → registered s' q) →
            (∀ q, registered s' q → is_closed s' q →
                  registered (st w) q ∧ is_closed (st w) q) →
            wg (eb s') = wg (eb (st w)) →
            shuttingDown (eb s') = shuttingDown (eb (st w)) →
            pending_count sp = 0 → (∀ q e, Send q e ∉ sp) →
            orderly (mkWorld s' (pool w ++ sp) None)) as Hsame.
  { intros s' sp Hreg Hcl Hwg' Hsd Hsp Hnot. split; simpl; [| | |done].
    - rewrite pending_count_app, Hsp, Hwg'. lia.
    - intros q e [Hin|Hin]%elem_of_app; [|by destruct (Hnot _ _ Hin)].
      eapply Hreg, Hsends, Hin.
    - intros q Hq Hc. rewrite Hwg', Hsd.
      destruct (Hcl q Hq Hc). by apply (Hclosed q). }
  assert (∀ ty, ∃ s1,
            Subscribe ty (st w) = Returned s1 (Return (length (chans (st w)))) [] ∧
            ∀ sp, pending_count sp = 0 → (∀ q e, Send q e ∉ sp) →
                  orderly (mkWorld s1 (pool w ++ sp) None)) as Hsub.
  { intros ty. destruct (shuttingDown (eb (st w))) eqn:Hs.
    - eexists. split; [by apply Subscribe_shut|]. intros sp ??.
      apply Hsame; try done.
      intros q Hq Hc. split; [done|].
      eapply is_closed_app; [|exact Hc]. by apply registered_bound.
    - eexists. split; [by apply Subscribe_open|]. intros sp ??.
      apply Hsame; try done.
      + intros q Hq. apply registered_register. by left.
      + intros q [Hq| ->]%registered_register (c & Hc & Hcl).
        * split; [done|]. exists c. split; [|done].
          replace (chans (register ty (st w)).2)
            with (chans (st w) ++ [mkChan 10 [] false]) in Hc
            by (unfold register; simpl; by case_bool_decide).
          rewrite lookup_app_l in Hc; [done|]. by apply registered_bound.
        * replace (chans (register ty (st w)).2)
            with (chans (st w) ++ [mkChan 10 [] false]) in Hc
            by (unfold register; simpl; by case_bool_decide).
          rewrite lookup_app_r, Nat.sub_diag in Hc by done.
          simpl in Hc. by simplify_eq/=.
      + unfold register. simpl. by case_bool_decide.
      + unfold register. simpl. by case_bool_decide. }
  destruct m as [ty|e|ty f|]; simpl.
  - fold (Subscribe ty (st w)). destruct (Hsub ty) as (s1 & -> & Hs1).
    intros [= <-]. apply Hs1; [done|]. by intros q e ?%elem_of_nil.
  - fold (Publish e (st w)). destruct (shuttingDown (eb (st w))) eqn:Hs.
    + rewrite Publish_shut by done. intros [= <-].
      apply Hsame; try done. by intros q e' ?%elem_of_nil.
    + rewrite Publish_open by done. intros [= <-].
      split; simpl; [| | |done].
      * rewrite pending_count_app, pending_count_Send, Hwg. lia.
      * intros q e' [Hin|Hin]%elem_of_app; [by eapply Hsends|].
        apply list_elem_of_In, in_map_iff in Hin as (q' & [= -> ->] & Hq).
        eapply targets_registered, list_elem_of_In, Hq.
      * intros q Hq Hc. destruct (Hclosed q Hq Hc). congruence.
  - fold (SubscribeFunc ty f (st w)). destruct (Hsub ty) as (s1 & E & Hs1).
    rewrite (SubscribeFunc_returns _ _ _ _ _ _ E). intros [= <-].
    apply Hs1; [done|]. by intros q e ?%list_elem_of_singleton.
  - fold (Shutdown (st w)).
    destruct (Shutdown (st w)) as [s1 p sp| |msg|] eqn:E; try done.
    + intros [= <-].
      apply Shutdown_returned in E as (_ & -> & Hz & s2 & E & ->).
      apply close_list_eb in E. rewrite app_nil_r.
      split; simpl; rewrite ?E; simpl; [congruence| |done|done].
      intros q e Hin. apply pending_count_elem in Hin; [|done]. lia.
    + intros [= <-]. split; simpl; try done.
      rewrite Shutdown_eq in E. simpl in E.
      repeat case_match; try done. injection E as <-.
      match goal with H : close_list _ _ = inl _ |- _ =>
        apply close_list_inl in H as [->| ->] end; done.
Qed.

Lemma is_closed_insert s q ch c c' :
  chans s !! ch = Some c → closed c' = closed c →
  is_closed (set_chans (<[ch := c']> (chans s)) s) q → is_closed s q.
Proof.
  intros Hc Hcl (x & Hx & Hxc). simpl in Hx.
  destruct (decide (ch = q)) as [->|Hne].
  - rewrite list_lookup_insert_eq in Hx by (by eapply lookup_lt_Some).
    injection Hx as <-. exists c. split; [done|congruence].
  - rewrite list_lookup_insert_ne in Hx by done. by exists x.
Qed.

Lemma orderly_sched i w w' :
  quiet w → orderly w → sched i w = Some w' → orderly w'.
Proof.
  intros [Hwf Hi Hp] [Hwg Hsends Hclosed Hcrash]. unfold sched.
  destruct (crashed w); [done|].
  destruct (pool w !! i) as [p|] eqn:Hpi; [|done].
  assert (p ∈ pool w) as Hin by (apply list_elem_of_lookup; eauto).
  assert (∀ s' p', pending p' = pending p →
            subscribers (eb s') = subscribers (eb (st w)) →
            allSubscribers (eb s') = allSubscribers (eb (st w)) →
            wg (eb s') = wg (eb (st w)) →
            shuttingDown (eb s') = shuttingDown (eb (st w)) →
            (∀ q, is_closed s' q → is_closed (st w) q) →
            (∀ q e, p' ≠ Send q e) →
            orderly (mkWorld s' (<[i := p']> (pool w) ++ []) None)) as Hsame.
  { intros s' p' Hpp Hs Ha Hwg' Hsd Hcl Hp'.
    assert (∀ q, registered s' q ↔ registered (st w) q) as Hreg.
    { intros q. unfold registered. by rewrite Hs, Ha. }
    split; simpl; [| | |done].
    - rewrite app_nil_r, Hwg', Hwg.
      pose proof (pending_count_insert _ _ _ p' Hpi) as Hc.
      rewrite Hpp in Hc. lia.
    - intros q e. rewrite app_nil_r.
      intros [Heq|Hq]%elem_of_insert_inv; [by destruct (Hp' q e)|].
      eapply Hreg, Hsends, Hq.
    - intros q Hq%Hreg Hc%Hcl. rewrite Hwg', Hsd. by apply (Hclosed q). }
  assert (goroutine p = true) as Hg
    by (by eapply (proj1 (Forall_forall _ _) Hp)).
  destruct p as [| | | | | | | | | |q e| | |ch f|f e ch| | | | | | | ]; try done; simpl.
  - (* subs <- event *)
    destruct (chans (st w) !! q) as [c|] eqn:Hq; [|done].
    destruct (closed c) eqn:Hcl.
    + intros _. exfalso.
      destruct (Hclosed q) as [Hz _]; [by eapply Hsends|by exists c|].
      apply pending_count_elem in Hin; [|done]. lia.
    + destruct (Nat.ltb _ _); [|done]. intros [= <-].
      apply Hsame; try done.
      intros q' Hq'. eapply is_closed_insert; [exact Hq| |exact Hq'].
      by rewrite Hcl.
  - (* eb.wg.Done() *)
    destruct (wg (eb (st w))) as [|n] eqn:Hn.
    + intros [= <-]. split; simpl; rewrite ?Hn; done.
    + intros [= <-]. split; simpl; [| | |done].
      * rewrite app_nil_r.
        pose proof (pending_count_insert _ _ _ Done Hpi) as Hc.
        simpl in Hc. lia.
      * intros q e. rewrite app_nil_r.
        intros [Heq|Hq]%elem_of_insert_inv; [done|]. by eapply Hsends.
      * intros q Hq Hc. destruct (Hclosed q Hq Hc). lia.
  - (* for event := range ch *)
    destruct (chans (st w) !! ch) as [c|] eqn:Hc; [|done].
    unfold recv. destruct (buf c) as [|e rest]; [destruct (closed c); [|done]|];
      intros [= <-]; apply Hsame; try done.
    intros q' Hq'. by eapply is_closed_insert; [exact Hc| |exact Hq'].
  - (* f(event) *)
    intros [= <-]. by apply Hsame.
Qed.

Lemma reachable_orderly w : reachable w → orderly w.
Proof.
  induction 1 as [|m w w' Hr IH Hinv|i w w' Hr IH Hs].
  - apply orderly_NewWorld.
  - eapply orderly_invoke; [by apply reachable_quiet|done..].
  - eapply orderly_sched; [by apply reachable_quiet|done..].
Qed.

(** When calls do not overlap one another, no delivery ever sends on a
    closed channel. *)
Lemma no_send_on_closed_between_calls w :
  reachable w → crashed w ≠ Some "send on closed channel"%string.
Proof. by intros [_ _ _ ?]%reachable_orderly. Qed.

(** ** Calls that overlap Shutdown *)

(** Shutdown gets past [eb.wg.Wait()] only with the counter at zero, and
    closes nothing before that. *)
Lemma Shutdown_waits_for_zero s s' p' spawned :
  exec s Shutdown_wait = Next s' p' spawned →
  wg (eb s) = 0 ∧ s' = s ∧ p' = Shutdown_lock.
Proof. simpl. destruct (wg (eb s)); [|done]. by intros [= <- <- _]. Qed.

(** C6 on the code: in this run Shutdown has seen the counter at zero and
    closed channel 0; Publish then returns with the counter at one and a
    delivery pending for channel 0; that delivery sends on the closed
    channel and the process panics. *)
Theorem Publish_overlapping_Shutdown_sends_on_closed :
  play Publish_overlaps_Shutdown NewWorld = Some (after Publish_overlaps_Shutdown) ∧
  pool (after (take 3 Publish_overlaps_Shutdown)) = [Publish_rlock (event_of "e1" "a")] ∧
  chans (st (after (take 4 Publish_overlaps_Shutdown))) = [mkChan 10 [] true] ∧
  pool (after (take 9 Publish_overlaps_Shutdown)) = [Done; Send 0 (event_of "e1" "a")] ∧
  wg (eb (st (after (take 9 Publish_overlaps_Shutdown)))) = 1 ∧
  crashed (after (take 9 Publish_overlaps_Shutdown)) = None ∧
  crashed (after Publish_overlaps_Shutdown) = Some "send on closed channel"%string.
Proof. split_and!; vm_compute; reflexivity. Qed.

(** C7 on the code: in this run the flag is set and Shutdown has returned
    when Subscribe registers channel 0 under "a"; Subscribe returns that
    channel, which is open and stays in the registry of a broker that has
    shut down. *)
Theorem Subscribe_overlapping_Shutdown_registers :
  play Subscribe_overlaps_Shutdown NewWorld = Some (after Subscribe_overlaps_Shutdown) ∧
  shuttingDown (eb (st (after (take 3 Subscribe_overlaps_Shutdown)))) = true ∧
  typed (st (after (take 3 Subscribe_overlaps_Shutdown))) "a" = [] ∧
  pool (after (take 3 Subscribe_overlaps_Shutdown)) = [Subscribe_lock "a"] ∧
  shuttingDown (eb (st (after Subscribe_overlaps_Shutdown))) = true ∧
  typed (st (after Subscribe_overlaps_Shutdown)) "a" = [0] ∧
  pool (after Subscribe_overlaps_Shutdown) = [Return 0] ∧
  chans (st (after Subscribe_overlaps_Shutdown)) = [mkChan 10 [] false] ∧
  crashed (after Subscribe_overlaps_Shutdown) = None.
Proof. split_and!; vm_compute; reflexivity. Qed.

(** * Further properties *)

(** ** The broker *)

Lemma within_capacity_insert s q c c' :
  within_capacity s → chans s !! q = Some c →
  length (buf c') ≤ cap c' → cap c' ≤ 10 →
  within_capacity (set_chans (<[q := c']> (chans s)) s).
Proof.
  intros Hw Hq H1 H2 q' x. simpl.
  destruct (decide (q = q')) as [->|Hne].
  - rewrite list_lookup_insert_eq by (by eapply lookup_lt_Some). by intros [= <-].
  - rewrite list_lookup_insert_ne by done. apply Hw.
Qed.

Lemma within_capacity_app s c' :
  within_capacity s → length (buf c') ≤ cap c' → cap c' ≤ 10 →
  within_capacity (set_chans (chans s ++ [c']) s).
Proof.
  intros Hw H1 H2 q x. simpl. intros Hx.
  apply lookup_app_Some in Hx as [Hx|[_ Hx]]; [by eapply Hw|].
  apply list_lookup_singleton_Some in Hx as [_ <-]. done.
Qed.

Lemma exec_within_capacity p : ∀ s s' p' spawned,
  within_capacity s → exec s p = Next s' p' spawned → within_capacity s'.
Proof.
  induction p as [ty|ty|ty|ch|ch|e|e|e rest|e rest| |c e| |callee IH f|ch f|f e ch
                  | | | |rest|rest| | ]; intros s s' p' sp Hw; simpl;
    try (repeat case_match; try done; by intros [= <- <- <-]).
  - destruct (shuttingDown (eb s)) eqn:Hs; [|by intros [= <- <- <-]].
    unfold close; simpl. rewrite lookup_app_r, Nat.sub_diag; [|done]. simpl.
    intros [= <- <- <-]. rewrite insert_app_r_alt, Nat.sub_diag by done. simpl.
    apply (within_capacity_app s (mkChan 0 [] true)); simpl; [done|lia..].
  - unfold register. simpl.
    case_bool_decide; simpl; intros [= <- <- <-];
      apply (within_capacity_app s (mkChan 10 [] false) Hw); simpl; lia.
  - destruct (chans s !! c) as [x|] eqn:Hc; [|done].
    destruct (closed x); [done|].
    destruct (Nat.ltb (length (buf x)) (cap x)) eqn:Hroom; [|done].
    intros [= <- <- <-]. apply Nat.ltb_lt in Hroom.
    destruct (Hw _ _ Hc) as [H1 H2].
    eapply within_capacity_insert; [done..| |done]; simpl.
    rewrite length_app. simpl. lia.
  - destruct callee; try (by intros [= <- <- <-]);
      (destruct (exec s _) as [s1 p1 sp1| | |] eqn:E; [|done..];
       intros [= <- <- <-]; by eapply IH).
  - destruct (chans s !! ch) as [x|] eqn:Hc; [|done].
    destruct (Hw _ _ Hc) as [H1 H2].
    unfold recv. destruct (buf x) as [|e rest] eqn:Hb.
    + destruct (closed x); [by intros [= <- <- <-]|done].
    + intros [= <- <- <-].
      eapply within_capacity_insert; [done..| |done]; simpl in *. lia.
  - destruct rest as [|c rest]; [by intros [= <- <- <-]|].
    destruct (close c s) as [|s1] eqn:E; [done|]. intros [= <- <- <-].
    apply close_inr in E as (x & Hx & _ & ->).
    destruct (Hw _ _ Hx). by eapply within_capacity_insert.
  - destruct rest as [|c rest]; [by intros [= <- <- <-]|].
    destruct (close c s) as [|s1] eqn:E; [done|]. intros [= <- <- <-].
    apply close_inr in E as (x & Hx & _ & ->).
    destruct (Hw _ _ Hx). by eapply within_capacity_insert.
Qed.

(** An invariant of single actions is an invariant of calls and of runs. *)
Lemma evals_invariant (P : State → Prop) s p acc r :
  (∀ s p s' p' spawned, P s → exec s p = Next s' p' spawned → P s') →
  evals s p acc r → P s → ∀ s' p' spawned, r = Returned s' p' spawned → P s'.
Proof.
  intros Hstep. induction 1 as [s p acc H|s p acc H|s p acc msg H|s p acc s1 p1 sp r H _ IH];
    intros HP s' p' spawned; try done.
  - by intros [= <- _ _].
  - apply IH. by eapply Hstep.
Qed.

Lemma play_invariant (P : State → Prop) acts :
  (∀ s p s' p' spawned, P s → exec s p = Next s' p' spawned → P s') →
  ∀ w w', P (st w) → play acts w = Some w' → P (st w').
Proof.
  intros Hstep. induction acts as [|a acts IH]; intros w w' HP; simpl.
  - by intros [= <-].
  - destruct (act a w) as [w1|] eqn:E; [|done]. apply IH.
    destruct a as [m|m|i]; simpl in E.
    + unfold invoke in E. destruct (crashed w); [done|].
      destruct (call (st w) (entry m)) as [s' p sp| |msg|] eqn:Ec; try done;
        injection E as <-; simpl; [|done].
      eapply (evals_invariant P); [done|apply evals_call|done|exact Ec].
    + unfold start in E. destruct (crashed w); [done|]. by injection E as <-.
    + unfold sched in E. destruct (crashed w); [done|].
      destruct (pool w !! i) as [p|]; [|done].
      destruct (exec (st w) p) as [s' p' sp| |msg|] eqn:Ee; try done;
        injection E as <-; simpl; [by eapply Hstep|done].
Qed.

(** X1: in every run, with calls overlapping or not, a subscriber's channel
    never holds more than ten events. *)
Theorem queue_never_exceeds_ten acts w q c :
  play acts NewWorld = Some w → chans (st w) !! q = Some c →
  length (buf c) ≤ 10.
Proof.
  intros Hplay Hq.
  assert (within_capacity (st w)) as Hw.
  { apply (play_invariant within_capacity acts) with (w := NewWorld);
      [|by intros [|q'] c' Hq'|exact Hplay].
    intros s p s' p' sp HP E. by eapply exec_within_capacity. }
  destruct (Hw _ _ Hq). lia.
Qed.

Lemma queue_never_exceeds_ten_witness : length (buf full_queue) ≤ 10.
Proof.
  apply (queue_never_exceeds_ten eleven_published (after eleven_published) 0 full_queue);
    vm_compute; reflexivity.
Defined.

(** After [eleven_published] the buffer is indeed full. *)
Example full_queue_is_full : length (buf full_queue) = 10.
Proof. vm_compute. reflexivity. Qed.

Lemma subscribed_register eventType' s q eventType :
  subscribed s q eventType → subscribed (register eventType' s).2 q eventType.
Proof.
  unfold subscribed, register. simpl.
  case_bool_decide as Hty; case_bool_decide as Hty'; simpl; try done.
  - intros Hq. apply elem_of_app. by left.
  - intros (l & Hl & Hq)%typed_elem. apply typed_elem. simpl.
    destruct (decide (eventType' = eventType)) as [->|Hne].
    + eexists. rewrite lookup_insert_eq. split; [done|].
      apply elem_of_app. left. apply typed_elem. eauto.
    + exists l. by rewrite lookup_insert_ne.
Qed.

Lemma exec_subscribed p s s' p' spawned q eventType :
  subscribed s q eventType → exec s p = Next s' p' spawned →
  subscribed s' q eventType.
Proof.
  intros Hq [(Hs & Ha & _)|[ty ->]]%exec_registry.
  - unfold subscribed, typed in *. by rewrite Hs, Ha.
  - by apply subscribed_register.
Qed.

(** X2: there is no way to unsubscribe: in every run, with calls overlapping
    or not, a channel registered for an event type stays registered for
    it. *)
Theorem subscription_is_never_removed acts w w' q eventType :
  subscribed (st w) q eventType → play acts w = Some w' →
  subscribed (st w') q eventType.
Proof.
  intros Hq Hplay.
  apply (play_invariant (λ s, subscribed s q eventType) acts) with (w := w);
    [|done..].
  intros s p s' p' sp HP E. by eapply exec_subscribed.
Qed.

Lemma subscription_is_never_removed_witness : subscribed (st shut_B) 1 "b".
Proof.
  apply (subscription_is_never_removed [Invoke M_Shutdown] (after scenario_B)).
  - vm_compute. apply list_elem_of_here.
  - vm_compute. reflexivity.
Defined.

(** X3: between calls the WaitGroup counter is the number of deliveries that
    have been started and have not yet called [wg.Done()]. *)
Theorem counter_counts_pending_deliveries w :
  reachable w → wg (eb (st w)) = pending_count (pool w).
Proof. by intros [? _ _ _]%reachable_orderly. Qed.

Lemma published_to_B_reachable : reachable (after published_to_B).
Proof.
  apply (play_reachable published_to_B NewWorld);
    [vm_compute; reflexivity|apply reach_init|vm_compute; reflexivity].
Defined.

Lemma counter_counts_pending_deliveries_witness :
  wg (eb (st (after published_to_B))) = pending_count (pool (after published_to_B)).
Proof.
  apply (counter_counts_pending_deliveries (after published_to_B)).
  exact published_to_B_reachable.
Defined.

(** X4: between calls no goroutine of the broker panics: no delivery sends
    on a closed channel and the counter never goes below zero. *)
Theorem goroutines_never_panic_between_calls w i w' :
  reachable w → sched i w = Some w' → crashed w' = None.
Proof.
  intros Hr Hs.
  pose proof (reachable_orderly _ (reach_sched _ _ _ Hr Hs)) as [_ _ _ Hcrash].
  pose proof (reachable_orderly _ Hr) as [Hwg _ _ _].
  pose proof (reachable_quiet _ Hr) as [_ _ Hp].
  unfold sched in Hs. destruct (crashed w); [done|].
  destruct (pool w !! i) as [p|] eqn:Hpi; [|done].
  assert (p ∈ pool w) as Hin by (apply list_elem_of_lookup; eauto).
  assert (goroutine p = true) as Hg
    by (by eapply (proj1 (Forall_forall _ _) Hp)).
  destruct (exec (st w) p) as [s' p' sp| |msg|] eqn:E; try done;
    injection Hs as <-; simpl in *; [done|].
  exfalso. destruct p; try done; simpl in E.
  - repeat case_match; try done. by injection E as <-.
  - destruct (wg (eb (st w))) eqn:Hz; [|done].
    apply pending_count_elem in Hin; [|done]. lia.
  - unfold recv in E. repeat case_match; done.
Qed.

Lemma goroutines_never_panic_between_calls_witness :
  crashed (after (published_to_B ++ [Step 0])) = None.
Proof.
  apply (goroutines_never_panic_between_calls (after published_to_B) 0).
  - exact published_to_B_reachable.
  - vm_compute. reflexivity.
Defined.

Lemma concat_NoDup (m : gmap string (list nat)) (kl : list (string * list nat)) :
  NoDup kl.*1 →
  (∀ k l, (k, l) ∈ kl → m !! k = Some l) →
  (∀ k l, m !! k = Some l → NoDup l) →
  (∀ k1 k2 l1 l2 c, m !! k1 = Some l1 → m !! k2 = Some l2 →
                     c ∈ l1 → c ∈ l2 → k1 = k2) →
  NoDup (concat (map snd kl)).
Proof.
  intros Hk Hin Hnd Hdisj. induction kl as [|[k l] kl IH]; simpl; [constructor|].
  apply NoDup_cons in Hk as [Hk Hk'].
  apply NoDup_app. split_and!.
  - eapply Hnd, Hin, list_elem_of_here.
  - intros c Hc (l' & Hc' & Hl')%elem_of_concat.
    apply list_elem_of_In, in_map_iff in Hl' as ([k' l''] & <- & Hkl%list_elem_of_In).
    simpl in *.
    assert (k = k') as <-.
    { eapply (Hdisj k k' l l'' c); eauto using list_elem_of_here, list_elem_of_further. }
    apply Hk. apply list_elem_of_fmap. by exists (k, l'').
  - apply IH; [done|]. intros k' l' H. apply Hin. by apply list_elem_of_further.
Qed.

Lemma registry_NoDup s : wf s → NoDup (typed_all s ++ allSubscribers (eb s)).
Proof.
  intros Hwf. apply NoDup_app. split_and!.
  - unfold typed_all.
    apply (concat_NoDup (subscribers (eb s))).
    + apply NoDup_fst_map_to_list.
    + intros k l. apply elem_of_map_to_list.
    + apply (wf_typed_nodup _ Hwf).
    + apply (wf_typed_disj _ Hwf).
  - intros q Hq Hall.
    assert (registered s q) as [(k & l & Hk & Hl)|?]
      by (apply registered_typed_all, elem_of_app; by left).
    + by eapply (wf_typed_all _ Hwf).
    + unfold typed_all in Hq. apply elem_of_concat in Hq as (l & Hl & Hkl).
      apply list_elem_of_In, in_map_iff in Hkl as ([k l'] & <- & Hkl%list_elem_of_In).
      apply elem_of_map_to_list in Hkl. by eapply (wf_typed_all _ Hwf).
  - apply (wf_all_nodup _ Hwf).
Qed.

(** [close] over a list of distinct open channels closes each of them and
    touches nothing else. *)
Lemma close_list_ok l : ∀ s,
  NoDup l →
  (∀ q, q ∈ l → ∃ c, chans s !! q = Some c ∧ closed c = false) →
  ∃ s', close_list l s = inr s'.
Proof.
  induction l as [|q l IH]; intros s Hnd Hopen; simpl; [eauto|].
  apply NoDup_cons in Hnd as [Hq Hnd].
  destruct (Hopen q) as (c & Hc & Hcl); [apply list_elem_of_here|].
  unfold close. rewrite Hc, Hcl. apply IH; [done|].
  intros q' Hq'. destruct (Hopen q') as (c' & Hc' & Hcl');
    [by apply list_elem_of_further|].
  exists c'. simpl. rewrite list_lookup_insert_ne; [done|]. by intros ->.
Qed.

Lemma close_buf c s s' q : close c s = inr s' → buf_of s' q = buf_of s q.
Proof.
  intros (x & Hx & _ & ->)%close_inr. unfold buf_of. simpl.
  destruct (decide (c = q)) as [->|Hne].
  - rewrite list_lookup_insert_eq by (by eapply lookup_lt_Some). by rewrite Hx.
  - by rewrite list_lookup_insert_ne.
Qed.

Lemma close_list_buf l : ∀ s s' q,
  close_list l s = inr s' → buf_of s' q = buf_of s q.
Proof.
  induction l as [|c l IH]; intros s s' q; simpl; [by intros [= <-]|].
  destruct (close c s) as [|s1] eqn:E; [done|]. intros H.
  rewrite (IH _ _ _ H). by eapply close_buf.
Qed.

Lemma close_list_calls l : ∀ s s', close_list l s = inr s' → calls s' = calls s.
Proof.
  induction l as [|c l IH]; intros s s'; simpl; [by intros [= <-]|].
  destruct (close c s) as [|s1] eqn:E; [done|]. intros H.
  rewrite (IH _ _ H). by apply close_inr in E as (x & _ & _ & ->).
Qed.

Lemma first_Shutdown w :
  reachable w → shuttingDown (eb (st w)) = false → wg (eb (st w)) = 0 →
  ∃ s1,
    Shutdown (st w) = Returned s1 Done [] ∧
    shuttingDown (eb s1) = true ∧ idle s1 ∧
    (∀ q, registered (st w) q → is_closed s1 q) ∧
    (∀ q, buf_of s1 q = buf_of (st w) q) ∧
    calls s1 = calls (st w) ∧
    subscribers (eb s1) = subscribers (eb (st w)) ∧
    allSubscribers (eb s1) = allSubscribers (eb (st w)).
Proof.
  intros Hr Hflag Hz.
  pose proof (reachable_quiet _ Hr) as [Hwf Hi _].
  pose proof (reachable_orderly _ Hr) as [_ _ Hclosed _].
  destruct (close_list_ok (typed_all (st w) ++ allSubscribers (eb (st w)))
              (set_mu (mkRWMutex true 0) (set_shuttingDown true (st w))))
    as [s2 E].
  { by apply registry_NoDup. }
  { intros q Hq%registered_typed_all. simpl.
    pose proof (registered_bound _ _ Hwf Hq) as Hlt.
    apply lookup_lt_is_Some in Hlt as [c Hc]. exists c. split; [done|].
    destruct (closed c) eqn:Hcl; [|done].
    destruct (Hclosed q Hq) as [_ Hf]; [by exists c|congruence]. }
  pose proof (close_list_eb _ _ _ E) as Heb. simpl in Heb.
  exists (set_mu (mkRWMutex false 0) s2).
  split_and!; simpl; rewrite ?Heb; try done.
  - rewrite Shutdown_eq. simpl. rewrite Hz, Hi. simpl. by rewrite E.
  - intros q Hq%registered_typed_all.
    destruct (close_list_closes _ _ _ q E Hq) as (c & ? & ?). by exists c.
  - intros q. exact (close_list_buf _ _ _ q E).
  - exact (close_list_calls _ _ _ E).
Qed.

(** X5: the first Shutdown.  Between calls, with the flag clear and no
    delivery pending, Shutdown returns: the flag is set, the lock is free
    again, every registered channel is closed, and every buffer is as it
    was, so that a consumer still finds the events delivered before. *)
Theorem first_Shutdown_closes_every_queue w :
  reachable w → shuttingDown (eb (st w)) = false → wg (eb (st w)) = 0 →
  ∃ s1,
    Shutdown (st w) = Returned s1 Done [] ∧
    shuttingDown (eb s1) = true ∧ idle s1 ∧
    (∀ q, registered (st w) q → is_closed s1 q) ∧
    (∀ q, buf_of s1 q = buf_of (st w) q) ∧
    calls s1 = calls (st w) ∧
    subscribers (eb s1) = subscribers (eb (st w)) ∧
    allSubscribers (eb s1) = allSubscribers (eb (st w)).
Proof. apply first_Shutdown. Qed.

Lemma first_Shutdown_closes_every_queue_witness :
  ∃ s1,
    Shutdown (st (after scenario_B)) = Returned s1 Done [] ∧
    shuttingDown (eb s1) = true ∧ idle s1 ∧
    (∀ q, registered (st (after scenario_B)) q → is_closed s1 q) ∧
    (∀ q, buf_of s1 q = buf_of (st (after scenario_B)) q) ∧
    calls s1 = calls (st (after scenario_B)) ∧
    subscribers (eb s1) = subscribers (eb (st (after scenario_B))) ∧
    allSubscribers (eb s1) = allSubscribers (eb (st (after scenario_B))).
Proof.
  apply (first_Shutdown_closes_every_queue (after scenario_B)).
  - exact scenario_B_reachable.
  - vm_compute. reflexivity.
  - vm_compute. reflexivity.
Defined.



(** X7: Publish never waits for a consumer: between calls it returns
    whatever the buffers hold, full or not, and writes to no channel
    itself. *)
Theorem Publish_never_waits w event :
  reachable w →
  ∃ s' spawned,
    Publish event (st w) = Returned s' Done spawned ∧
    chans s' = chans (st w) ∧ calls s' = calls (st w) ∧
    length spawned = wg (eb s') - wg (eb (st w)).
Proof.
  intros [Hwf Hi _]%reachable_quiet.
  destruct (shuttingDown (eb (st w))) eqn:Hs.
  - exists (st w), []. rewrite Publish_shut by done. split_and!; simpl; [done..|lia].
  - eexists _, _. rewrite Publish_open; [|done|by rewrite Hi].
    split_and!; try done. rewrite length_map. unfold set_wg. cbn [eb wg]. lia.
Qed.

Lemma eleven_published_reachable : reachable (after eleven_published).
Proof.
  apply (play_reachable eleven_published NewWorld);
    [vm_compute; reflexivity|apply reach_init|vm_compute; reflexivity].
Defined.

Lemma Publish_never_waits_witness :
  ∃ s' spawned,
    Publish (event_of "e12" "a") (st (after eleven_published)) =
      Returned s' Done spawned ∧
    chans s' = chans (st (after eleven_published)) ∧
    calls s' = calls (st (after eleven_published)) ∧
    length spawned = wg (eb s') - wg (eb (st (after eleven_published))).
Proof.
  apply (Publish_never_waits (after eleven_published)).
  exact eleven_published_reachable.
Defined.

Lemma at_rest_cannot_step s p : at_rest s p = true → exec s p = Blocked ∨ exec s p = Halted.
Proof.
  destruct p; try done; simpl; [|by right].
  destruct (chans s !! subs) as [c|]; [|done].
  intros [Hcl Hfull]%andb_prop. apply negb_true_iff in Hcl. rewrite Hcl.
  apply Nat.leb_le in Hfull.
  destruct (Nat.ltb (length (buf c)) (cap c)) eqn:E; [|by left].
  apply Nat.ltb_lt in E. lia.
Qed.

(** X8: a full channel that nobody reads stalls Shutdown.  Between calls,
    when every goroutine is done or is a delivery waiting on a full open
    channel, and there is such a delivery, Shutdown sets the flag and then
    waits at [eb.wg.Wait()]; no goroutine can take a step, and Publish, being
    dropped from now on, changes nothing. *)
Theorem full_queue_stalls_Shutdown w :
  reachable w → forallb (at_rest (st w)) (pool w) = true →
  0 < pending_count (pool w) →
  Shutdown (st w) = Stuck (set_shuttingDown true (st w)) Shutdown_wait [] ∧
  exec (set_shuttingDown true (st w)) Shutdown_wait = Blocked ∧
  (∀ p, p ∈ pool w →
        exec (set_shuttingDown true (st w)) p = Blocked ∨
        exec (set_shuttingDown true (st w)) p = Halted) ∧
  (∀ event, Publish event (set_shuttingDown true (st w)) =
              Returned (set_shuttingDown true (st w)) Done []).
Proof.
  intros Hr Hrest Hpending.
  pose proof (reachable_orderly _ Hr) as [Hwg _ _ _].
  destruct (wg (eb (st w))) as [|n] eqn:Hz; [lia|].
  split_and!.
  - rewrite Shutdown_eq. simpl. by rewrite Hz.
  - simpl. by rewrite Hz.
  - intros p Hp. apply at_rest_cannot_step.
    rewrite forallb_forall in Hrest. by apply Hrest, list_elem_of_In.
  - intros event. by apply Publish_shut.
Qed.

Lemma full_queue_stalls_Shutdown_witness :
  Shutdown (st (after eleven_published)) =
    Stuck (set_shuttingDown true (st (after eleven_published))) Shutdown_wait [] ∧
  exec (set_shuttingDown true (st (after eleven_published))) Shutdown_wait = Blocked ∧
  (∀ p, p ∈ pool (after eleven_published) →
        exec (set_shuttingDown true (st (after eleven_published))) p = Blocked ∨
        exec (set_shuttingDown true (st (after eleven_published))) p = Halted) ∧
  (∀ event, Publish event (set_shuttingDown true (st (after eleven_published))) =
              Returned (set_shuttingDown true (st (after eleven_published))) Done []).
Proof.
  apply (full_queue_stalls_Shutdown (after eleven_published)).
  - exact eleven_published_reachable.
  - vm_compute. reflexivity.
  - vm_compute. lia.
Defined.

(** X9: every Subscribe hands out a channel of its own.  Between calls
    Subscribe returns a channel object that did not exist before and that the
    registry did not hold; it is empty; every other channel object is as it
    was, and the subscriptions there were are still there. *)
Theorem Subscribe_returns_a_fresh_queue w eventType :
  reachable w →
  ∃ s' ch c,
    Subscribe eventType (st w) = Returned s' (Return ch) [] ∧
    chans (st w) !! ch = None ∧ ¬ registered (st w) ch ∧
    chans s' !! ch = Some c ∧ buf c = [] ∧
    (∀ q, q ≠ ch → chans s' !! q = chans (st w) !! q) ∧
    (∀ q eventType', subscribed (st w) q eventType' → subscribed s' q eventType').
Proof.
  intros [Hwf Hi _]%reachable_quiet.
  assert (chans (st w) !! length (chans (st w)) = None) as Hnone
    by (by apply lookup_ge_None).
  assert (¬ registered (st w) (length (chans (st w)))) as Hnot.
  { intros ?%registered_bound; [lia|done]. }
  assert (∀ (x : Chan) q, q ≠ length (chans (st w)) →
            (chans (st w) ++ [x]) !! q = chans (st w) !! q) as Hother.
  { intros x q Hq. destruct (decide (q < length (chans (st w)))).
    - by rewrite lookup_app_l.
    - rewrite !lookup_ge_None_2; [done|lia|]. rewrite length_app. simpl. lia. }
  assert (∀ (x : Chan), (chans (st w) ++ [x]) !! length (chans (st w)) = Some x)
    as Hnew by (intros x; by rewrite lookup_app_r, Nat.sub_diag).
  destruct (shuttingDown (eb (st w))) eqn:Hs.
  - eexists _, _, _. split; [by apply Subscribe_shut|].
    split_and!; simpl; try done. apply Hother.
  - eexists _, _, (mkChan 10 [] false). split; [by apply Subscribe_open|].
    assert (chans (register eventType (st w)).2 =
            chans (st w) ++ [mkChan 10 [] false]) as ->
      by (unfold register; simpl; by case_bool_decide).
    split_and!; try done.
    + apply Hother.
    + intros q ty. apply subscribed_register.
Qed.

Lemma Subscribe_returns_a_fresh_queue_witness :
  ∃ s' ch c,
    Subscribe "a" (st (after scenario_B)) = Returned s' (Return ch) [] ∧
    chans (st (after scenario_B)) !! ch = None ∧
    ¬ registered (st (after scenario_B)) ch ∧
    chans s' !! ch = Some c ∧ buf c = [] ∧
    (∀ q, q ≠ ch → chans s' !! q = chans (st (after scenario_B)) !! q) ∧
    (∀ q eventType', subscribed (st (after scenario_B)) q eventType' →
                     subscribed s' q eventType').
Proof.
  apply (Subscribe_returns_a_fresh_queue (after scenario_B) "a").
  exact scenario_B_reachable.
Defined.

(** X10: subscribe, publish, deliver.  Between calls and with the flag clear,
    a new subscriber of the event's type, or of ["*"], is a target of the
    next Publish exactly once, and the delivery puts the event, alone, into
    its channel. *)
Theorem new_subscriber_receives_next_event w eventType event :
  reachable w → shuttingDown (eb (st w)) = false →
  eventType = "*"%string ∨ eventType = Type_ event →
  ∃ s1 ch s2 s3,
    Subscribe eventType (st w) = Returned s1 (Return ch) [] ∧
    Publish event s1 =
      Returned s2 Done (map (λ q, Send q event) (targets s1 event)) ∧
    ch ∈ targets s1 event ∧ NoDup (targets s1 event) ∧
    exec s2 (Send ch event) = Next s3 Send_done [] ∧
    buf_of s3 ch = [event].
Proof.
  intros Hr Hflag Hty.
  pose proof (reachable_quiet _ Hr) as [Hwf Hi _].
  set (s1 := (register eventType (st w)).2).
  assert (wf s1) as Hwf1 by (by apply wf_register).
  assert (shuttingDown (eb s1) = false ∧ writer (mu (eb s1)) = false ∧
          chans s1 = chans (st w) ++ [mkChan 10 [] false]) as (Hf1 & Hw1 & Hc1).
  { unfold idle in Hi. unfold s1, register. simpl.
    case_bool_decide; simpl; by rewrite Hi. }
  assert (length (chans (st w)) ∈ targets s1 event) as Hin.
  { apply targets_elem; [done|].
    destruct (decide (eventType = "*"%string)) as [Hstar|Hstar].
    - right. unfold subscribed, s1, register. rewrite Hstar. simpl.
      apply elem_of_app. right. by apply list_elem_of_singleton.
    - left. destruct Hty as [?| <-]; [done|].
      unfold subscribed, s1, register.
      rewrite !bool_decide_eq_false_2 by done.
      apply typed_elem. simpl. eexists. rewrite lookup_insert_eq.
      split; [done|]. apply elem_of_app. right. by apply list_elem_of_singleton. }
  destruct (exec_Send (set_wg (wg (eb s1) + length (targets s1 event)) s1)
              (length (chans (st w))) event (mkChan 10 [] false))
    as (s3 & Hs3 & Hb3 & _); simpl; [|done|lia|].
  { by rewrite Hc1, lookup_app_r, Nat.sub_diag. }
  exists s1, (length (chans (st w))),
    (set_wg (wg (eb s1) + length (targets s1 event)) s1), s3.
  split_and!; try done.
  - by apply Subscribe_open.
  - by apply Publish_open.
  - by apply targets_NoDup.
Qed.

Lemma new_subscriber_receives_next_event_witness :
  ∃ s1 ch s2 s3,
    Subscribe "a" (st (after scenario_B)) = Returned s1 (Return ch) [] ∧
    Publish (event_of "e1" "a") s1 =
      Returned s2 Done
        (map (λ q, Send q (event_of "e1" "a")) (targets s1 (event_of "e1" "a"))) ∧
    ch ∈ targets s1 (event_of "e1" "a") ∧
    NoDup (targets s1 (event_of "e1" "a")) ∧
    exec s2 (Send ch (event_of "e1" "a")) = Next s3 Send_done [] ∧
    buf_of s3 ch = [event_of "e1" "a"].
Proof.
  apply (new_subscriber_receives_next_event (after scenario_B) "a" (event_of "e1" "a")).
  - exact scenario_B_reachable.
  - vm_compute. reflexivity.
  - right. reflexivity.
Defined.

(** X11: an event nobody has subscribed to is dropped: with no channel under
    its type and no wildcard channel, Publish returns and leaves the state,
    counter included, as it was. *)
Theorem Publish_without_subscriber_changes_nothing w event :
  reachable w → targets (st w) event = [] →
  Publish event (st w) = Returned (st w) Done [].
Proof.
  intros [Hwf Hi _]%reachable_quiet Ht.
  destruct (shuttingDown (eb (st w))) eqn:Hs; [by apply Publish_shut|].
  rewrite Publish_open; [|done|by rewrite Hi]. rewrite Ht. simpl.
  by rewrite set_wg_add_0.
Qed.

Lemma only_b_reachable : reachable (after only_b).
Proof.
  apply (play_reachable only_b NewWorld);
    [vm_compute; reflexivity|apply reach_init|vm_compute; reflexivity].
Defined.

Lemma Publish_without_subscriber_changes_nothing_witness :
  Publish (event_of "e1" "a") (st (after only_b)) =
    Returned (st (after only_b)) Done [].
Proof.
  apply (Publish_without_subscriber_changes_nothing (after only_b)).
  - exact only_b_reachable.
  - vm_compute. reflexivity.
Defined.

(** X12: SubscribeFunc after Shutdown never calls the callback: the loop it
    starts finds the channel closed and empty and exits; the record of calls
    is as it was. *)
Theorem SubscribeFunc_after_Shutdown_calls_nothing s0 s1 p spawned s eventType f :
  Shutdown s0 = Returned s1 p spawned → later s1 s →
  ∃ s2 ch,
    SubscribeFunc eventType f s = Returned s2 Done [Range ch f] ∧
    call s2 (Range ch f) = Returned s2 Done [] ∧
    calls s2 = calls s ∧ eb s2 = eb s.
Proof.
  intros Hflag%Shutdown_sets_flag Hlater.
  pose proof (later_flag _ _ Hlater Hflag) as Hs.
  eexists _, _. split_and!.
  - erewrite SubscribeFunc_returns by (by apply Subscribe_shut). reflexivity.
  - erewrite (Range_closed _ _ (mkChan 0 [] true)); simpl; [| |done].
    + unfold consume. simpl.
      rewrite list_insert_id by (by rewrite lookup_app_r, Nat.sub_diag).
      by rewrite app_nil_r.
    + by rewrite lookup_app_r, Nat.sub_diag.
  - done.
  - done.
Qed.

Lemma SubscribeFunc_after_Shutdown_calls_nothing_witness :
  ∃ s2 ch,
    SubscribeFunc "a" 7 late_subscriber = Returned s2 Done [Range ch 7] ∧
    call s2 (Range ch 7) = Returned s2 Done [] ∧
    calls s2 = calls late_subscriber ∧ eb s2 = eb late_subscriber.
Proof.
  apply (SubscribeFunc_after_Shutdown_calls_nothing
           one_subscriber one_subscriber_shut Done []).
  - vm_compute. reflexivity.
  - exact late_subscriber_later.
Defined.

(** X13: Shutdown loses no delivered event: after the first Shutdown a
    consumer loop over a registered channel hands the callback every event
    that was buffered when Shutdown was called, oldest first, and then
    exits. *)
Theorem events_delivered_before_Shutdown_are_consumed w q f :
  reachable w → shuttingDown (eb (st w)) = false → wg (eb (st w)) = 0 →
  registered (st w) q →
  ∃ s1 s2,
    Shutdown (st w) = Returned s1 Done [] ∧
    call s1 (Range q f) = Returned s2 Done [] ∧
    calls s2 = calls (st w) ++ map (pair f) (buf_of (st w) q) ∧
    buf_of s2 q = [].
Proof.
  intros Hr Hflag Hz Hq.
  destruct (first_Shutdown w Hr Hflag Hz)
    as (s1 & Hs1 & _ & _ & Hcl & Hbuf & Hcalls & _).
  destruct (Hcl q Hq) as (c & Hc & Hclosed).
  exists s1, (consume q f c s1). split_and!; [done|by apply Range_closed| |].
  - unfold consume. simpl. rewrite Hcalls, <- (Hbuf q). unfold buf_of.
    by rewrite Hc.
  - unfold buf_of, consume. simpl.
    by rewrite list_lookup_insert_eq by (by eapply lookup_lt_Some).
Qed.

Lemma two_delivered_reachable : reachable (after two_delivered).
Proof.
  apply (play_reachable two_delivered NewWorld);
    [vm_compute; reflexivity|apply reach_init|vm_compute; reflexivity].
Defined.

Lemma events_delivered_before_Shutdown_are_consumed_witness :
  ∃ s1 s2,
    Shutdown (st (after two_delivered)) = Returned s1 Done [] ∧
    call s1 (Range 0 7) = Returned s2 Done [] ∧
    calls s2 = calls (st (after two_delivered)) ++
               map (pair 7) (buf_of (st (after two_delivered)) 0) ∧
    buf_of s2 0 = [].
Proof.
  apply (events_delivered_before_Shutdown_are_consumed (after two_delivered) 0 7).
  - exact two_delivered_reachable.
  - vm_compute. reflexivity.
  - vm_compute. reflexivity.
  - left. exists "a"%string, [0]. split; [vm_compute; reflexivity|].
    apply list_elem_of_here.
Defined.

(** What the consumer gets in that example: both events, in order. *)
Example two_delivered_buffer :
  buf_of (st (after two_delivered)) 0 = [event_of "e1" "a"; event_of "e2" "a"].
Proof. vm_compute. reflexivity. Qed.

(** X14: Shutdown is not to be called twice: once a first Shutdown has
    returned, a second one, with any channel in the registry, panics on
    closing a channel that is closed already. *)
Theorem second_Shutdown_panics s s1 p spawned :
  typed_all s ++ allSubscribers (eb s) ≠ [] →
  Shutdown s = Returned s1 p spawned →
  Shutdown s1 = Panicked "close of closed channel".
Proof. apply Shutdown_twice_panics. Qed.

Lemma second_Shutdown_panics_witness :
  Shutdown one_subscriber_shut = Panicked "close of closed channel".
Proof.
  apply (second_Shutdown_panics one_subscriber one_subscriber_shut Done []).
  - vm_compute. discriminate.
  - vm_compute. reflexivity.
Defined.

(** X15: when calls do not overlap, the registry is frozen once the flag is
    set: no call and no goroutine step changes the map, the wildcard list or
    the flag. *)
Theorem registry_is_frozen_after_Shutdown w w' :
  reachable w → shuttingDown (eb (st w)) = true →
  (∃ m, invoke m w = Some w') ∨ (∃ i, sched i w = Some w') →
  same_routing (st w) (st w').
Proof. apply registry_frozen_by_flag. Qed.

Lemma subscribed_then_shut_reachable : reachable (after subscribed_then_shut).
Proof.
  apply (play_reachable subscribed_then_shut NewWorld);
    [vm_compute; reflexivity|apply reach_init|vm_compute; reflexivity].
Defined.

Lemma registry_is_frozen_after_Shutdown_witness :
  same_routing (st (after subscribed_then_shut))
               (st (after (subscribed_then_shut ++ [Invoke (M_Subscribe "b")]))).
Proof.
  apply (registry_is_frozen_after_Shutdown (after subscribed_then_shut)).
  - exact subscribed_then_shut_reachable.
  - vm_compute. reflexivity.
  - left. exists (M_Subscribe "b"). vm_compute. reflexivity.
Defined.

(** ** The NATS-backed broker *)

Lemma Nats_perform_direct {C V Sub Err} (conn : Nats.Connection C V Sub Err) r self :
  (Nats.perform conn r self).1 = Nats.drop_on_error (Nats.direct conn r self.1).1 ∧
  (Nats.perform conn r self).2.1 = (Nats.direct conn r self.1).2.
Proof.
  destruct self as [c log].
  destruct r; simpl; unfold Nats.Publish, Nats.PublishRequest, Nats.Request,
    Nats.Subscribe, Nats.QueueSubscribe, Nats.drop_on_error; simpl;
    repeat case_match; simplify_eq/=; done.
Qed.

(** X16: the wrapper is transparent: a sequence of calls leaves the
    connection in the state the same calls made directly would leave it in,
    and returns what they would return, except that a subscription returned
    together with an error is dropped. *)
Theorem Nats_wrapper_is_transparent {C V Sub Err}
    (conn : Nats.Connection C V Sub Err) rs self :
  (Nats.perform_all conn rs self).1 =
    map Nats.drop_on_error (Nats.direct_all conn rs self.1).1 ∧
  (Nats.perform_all conn rs self).2.1 = (Nats.direct_all conn rs self.1).2.
Proof.
  revert self. induction rs as [|r rs IH]; intros self; simpl; [done|].
  destruct (Nats_perform_direct conn r self) as [H1 H2].
  destruct (Nats.perform conn r self) as [res b] eqn:Ep.
  destruct (Nats.direct conn r self.1) as [res' c'] eqn:Ed.
  simpl in *. subst.
  destruct (IH b) as [IH1 IH2].
  destruct (Nats.perform_all conn rs b) as [ress b'].
  destruct (Nats.direct_all conn rs b.1) as [ress' c''].
  simpl in *. by subst.
Qed.

Lemma Nats_perform_log {C V Sub Err} (conn : Nats.Connection C V Sub Err) r self :
  ∃ e, (Nats.perform conn r self).2.2 = self.2 ++ [e] ∧
       Nats.logged_errors [e] = Nats.returned_errors [(Nats.perform conn r self).1] ∧
       (Nats.level e = Nats.LError ∨ Nats.level e = Nats.LDebug).
Proof.
  destruct self as [c log].
  destruct r; simpl; unfold Nats.Publish, Nats.PublishRequest, Nats.Request,
    Nats.Subscribe, Nats.QueueSubscribe; simpl;
    repeat case_match; simplify_eq/=; eexists; split_and!; try done; auto.
Qed.

Lemma Nats_logged_errors_app {V Err} (l1 l2 : list (Nats.Entry V Err)) :
  Nats.logged_errors (l1 ++ l2) = Nats.logged_errors l1 ++ Nats.logged_errors l2.
Proof. unfold Nats.logged_errors. by rewrite flat_map_app. Qed.

(** X17: every call writes one log entry, and the errors logged are the
    errors returned, in the same order. *)
Theorem Nats_wrapper_logs_every_call {C V Sub Err}
    (conn : Nats.Connection C V Sub Err) rs self :
  ∃ entries,
    (Nats.perform_all conn rs self).2.2 = self.2 ++ entries ∧
    length entries = length rs ∧
    Nats.logged_errors entries =
      Nats.returned_errors (Nats.perform_all conn rs self).1.
Proof.
  revert self. induction rs as [|r rs IH]; intros self; simpl.
  - exists []. by rewrite app_nil_r.
  - destruct (Nats_perform_log conn r self) as (e & He & Herr & _).
    destruct (Nats.perform conn r self) as [res b] eqn:Ep.
    cbn [fst snd] in He, Herr.
    destruct (IH b) as (entries & Hl & Hlen & Herrs).
    destruct (Nats.perform_all conn rs b) as [ress b'].
    cbn [fst snd] in *.
    exists (e :: entries). split_and!.
    + rewrite Hl, He, <- app_assoc. done.
    + simpl. by rewrite Hlen.
    + change (e :: entries) with ([e] ++ entries).
      change (res :: ress) with ([res] ++ ress).
      rewrite Nats_logged_errors_app, Herr, Herrs.
      unfold Nats.returned_errors. by rewrite flat_map_app.
Qed.

(** ** NewNats *)

Lemma all_fail_spec {Conn Err : Type} (connect : nat → Err + Conn) n k :
  Dial.all_fail connect n = true → k < n → ∃ e, connect k = inl e.
Proof.
  unfold Dial.all_fail. rewrite forallb_forall. intros H Hk.
  specialize (H k). destruct (connect k) as [e|c]; [eauto|].
  discriminate H. apply in_seq. lia.
Qed.

Lemma connect_loop_success {Conn Err : Type} (connect : nat → Err + Conn) ivs :
  ∀ k c spent nc err,
    k < length ivs →
    (∀ j, j < k → ∃ e, connect (Dial.dials spent + j) = inl e) →
    connect (Dial.dials spent + k) = inr c →
    Dial.connect_loop connect ivs spent nc err =
      (Dial.mkEffort (Dial.slept spent + sum_list (take (S k) ivs))
                     (Dial.dials spent + S k),
       (Some c, None)).
Proof.
  induction ivs as [|iv ivs IH]; intros k c spent nc err Hk Hfail Hok; simpl in *;
    [lia|].
  destruct k as [|k].
  - rewrite Nat.add_0_r in Hok. rewrite Hok. simpl.
    f_equal. f_equal; simpl; lia.
  - destruct (Hfail 0) as [e He]; [lia|]. rewrite Nat.add_0_r in He. rewrite He.
    rewrite (IH k c); simpl.
    + f_equal. f_equal; simpl; lia.
    + lia.
    + intros j Hj. destruct (Hfail (S j)) as [e' He']; [lia|].
      exists e'. rewrite <- He'. f_equal. lia.
    + rewrite <- Hok. f_equal. lia.
Qed.

Lemma connect_loop_failure {Conn Err : Type} (connect : nat → Err + Conn) ivs :
  ∀ spent nc err e,
    (∀ j, j < length ivs → ∃ e', connect (Dial.dials spent + j) = inl e') →
    connect (Dial.dials spent + length ivs - 1) = inl e →
    ivs ≠ [] →
    Dial.connect_loop connect ivs spent nc err =
      (Dial.mkEffort (Dial.slept spent + sum_list ivs)
                     (Dial.dials spent + length ivs),
       (None, Some e)).
Proof.
  induction ivs as [|iv ivs IH]; intros spent nc err e Hfail Hlast Hne; simpl in *;
    [done|].
  destruct (Hfail 0) as [e0 He0]; [lia|]. rewrite Nat.add_0_r in He0. rewrite He0.
  destruct ivs as [|iv' ivs].
  - replace (Dial.dials spent + S (length []) - 1) with (Dial.dials spent) in Hlast
      by (simpl; lia).
    rewrite He0 in Hlast. injection Hlast as ->. simpl.
    f_equal. f_equal; simpl; lia.
  - rewrite (IH _ _ _ e); simpl in *.
    + f_equal. f_equal; simpl; lia.
    + intros j Hj. destruct (Hfail (S j)) as [e' He']; [lia|].
      exists e'. rewrite <- He'. f_equal. lia.
    + rewrite <- Hlast. f_equal. lia.
    + done.
Qed.

(** X18: NewNats stops dialling at the first success: when call number [k]
    (of at most seven) is the first that succeeds, NewNats has called
    [nats.Connect] [k + 1] times, has slept the first [k + 1] intervals and
    nothing more, and goes on with that connection. *)
Theorem NewNats_stops_at_first_success {Conn EConn Err : Type}
    (connect : nat → Err + Conn) (encode : option Conn → string → Err + EConn)
    (enc : string) (k : nat) (c : Conn) :
  k < 7 → Dial.all_fail connect k = true → connect k = inr c →
  Dial.NewNats connect encode enc =
    (Dial.mkEffort (sum_list (take (S k) Dial.intervals)) (S k),
     match encode (Some c) enc with
     | inl e => Dial.Fatal e
     | inr ec => Dial.Up ec
     end) ∧
  sum_list (take (S k) Dial.intervals) ≤ 108.
Proof.
  intros Hk Hfail Hok. split.
  - unfold Dial.NewNats.
    rewrite (connect_loop_success connect Dial.intervals k c); simpl; try done.
    + by destruct (encode (Some c) enc).
    + intros j Hj. by eapply all_fail_spec.
  - do 7 (destruct k as [|k]; [simpl; lia|]). lia.
Qed.

(** X19: NewNats gives up after seven attempts: when all seven calls of
    [nats.Connect] fail, NewNats has slept 108 seconds in all and ends in
    [log.Fatal] with the error of the seventh call; [nats.NewEncodedConn] is
    not reached. *)
Theorem NewNats_gives_up_after_seven {Conn EConn Err : Type}
    (connect : nat → Err + Conn) (encode : option Conn → string → Err + EConn)
    (enc : string) (e : Err) :
  Dial.all_fail connect 7 = true → connect 6 = inl e →
  Dial.NewNats connect encode enc = (Dial.mkEffort 108 7, Dial.Fatal e).
Proof.
  intros Hfail Hlast. unfold Dial.NewNats.
  rewrite (connect_loop_failure connect Dial.intervals _ _ _ e); try done.
  intros j Hj. by eapply all_fail_spec.
Qed.

Lemma NewNats_stops_at_first_success_witness :
  Dial.NewNats third_time_lucky encode_any "json" =
    (Dial.mkEffort (sum_list (take 3 Dial.intervals)) 3,
     match encode_any (Some 2) "json" with
     | inl e => Dial.Fatal e
     | inr ec => Dial.Up ec
     end) ∧
  sum_list (take 3 Dial.intervals) ≤ 108.
Proof.
  apply (NewNats_stops_at_first_success third_time_lucky encode_any "json" 2 2);
    [lia|reflexivity|reflexivity].
Defined.

Lemma NewNats_gives_up_after_seven_witness :
  Dial.NewNats never_there encode_any "json" =
    (Dial.mkEffort 108 7, Dial.Fatal "refused at last"%string).
Proof.
  apply (NewNats_gives_up_after_seven never_there encode_any "json");
    reflexivity.
Defined.

(** ** The Pub/Sub forwarder *)

(** X20: the forwarder sends every event, in order, once, under its topic and
    with the Content-Type attribute; a failed send is logged and stops
    nothing: the events after it are sent all the same. *)
Theorem PubSubForwarder_sends_every_event {Err : Type} (fails : Event → option Err)
    (topic : string) (events : list Event) sent log :
  PubSub.forward
    (CloudEventForwarder
       (PubSub.Send (PubSub.mkPubSubForwarder topic (PubSub.recording fails))))
    events (sent, log) =
  (sent ++ map (pair (PubSub.sent_with topic)) events,
   log ++ PubSub.failures fails events).
Proof.
  revert sent log. induction events as [|e events IH]; intros sent log.
  - simpl. by rewrite !app_nil_r.
  - set (h := CloudEventForwarder _) in *.
    change (PubSub.forward h (e :: events) (sent, log))
      with (PubSub.forward h events (h e (sent, log))).
    assert (h e (sent, log) =
            (sent ++ [(PubSub.sent_with topic, e)],
             log ++ PubSub.failures fails [e])) as ->.
    { unfold h, CloudEventForwarder, PubSub.Send, PubSub.recording,
        PubSub.failures. simpl.
      destruct (fails e); simpl; by rewrite ?app_nil_r. }
    rewrite IH, <- !app_assoc. simpl. unfold PubSub.failures. simpl.
    by rewrite app_nil_r.
Qed.

(** X21: with GOOGLE_CLOUD_PROJECT set, the default credentials play no part:
    whatever they are, and whether they can be found or not, the result is
    the same, and the protocol is made for the project of the variable. *)
Theorem NewPubSubForwarder_prefers_the_variable {Proto K Err : Type}
    (out : PubSub.Outside Proto K Err) (topic : string)
    (credentials : Err + string) :
  PubSub.GOOGLE_CLOUD_PROJECT out ≠ ""%string →
  PubSub.NewPubSubForwarder (PubSub.with_credentials out credentials) topic =
    PubSub.NewPubSubForwarder out topic ∧
  (∀ err, PubSub.New out (PubSub.GOOGLE_CLOUD_PROJECT out) = inl err →
     PubSub.NewPubSubForwarder out topic =
       inl (PubSub.Errorf "failed to instantiate pubsub protocol: %w" err)).
Proof.
  intros Hne. unfold PubSub.NewPubSubForwarder, PubSub.with_credentials. simpl.
  rewrite bool_decide_eq_false_2 by done. split; [done|].
  by intros err ->.
Qed.

Lemma NewPubSubForwarder_prefers_the_variable_witness :
  PubSub.NewPubSubForwarder
    (PubSub.with_credentials variable_set (inr "another-project"%string)) "events" =
    PubSub.NewPubSubForwarder variable_set "events" ∧
  (∀ err, PubSub.New variable_set (PubSub.GOOGLE_CLOUD_PROJECT variable_set) = inl err →
     PubSub.NewPubSubForwarder variable_set "events" =
       inl (PubSub.Errorf "failed to instantiate pubsub protocol: %w" err)).
Proof.
  apply (NewPubSubForwarder_prefers_the_variable variable_set "events").
  vm_compute. discriminate.
Defined.

(** X22: with GOOGLE_CLOUD_PROJECT empty and no default credentials,
    NewPubSubForwarder returns the wrapped error of the credentials, and
    neither the protocol nor the client is wanted: the result is the same
    whatever they would give. *)
Theorem NewPubSubForwarder_needs_a_project {Proto K Err : Type}
    (out : PubSub.Outside Proto K Err) (topic : string) (err : Err)
    (new : string → Err + Proto) (newClient : Proto → Err + PubSub.Client K Err) :
  PubSub.GOOGLE_CLOUD_PROJECT out = ""%string →
  PubSub.FindDefaultCredentials out = inl err →
  PubSub.NewPubSubForwarder out topic =
    inl (PubSub.Errorf "failed to retrieve project ID: %w" err) ∧
  PubSub.NewPubSubForwarder (PubSub.with_services out new newClient) topic =
    inl (PubSub.Errorf "failed to retrieve project ID: %w" err).
Proof.
  intros Henv Hcred. unfold PubSub.NewPubSubForwarder, PubSub.with_services. simpl.
  rewrite Henv, Hcred. by rewrite bool_decide_eq_true_2.
Qed.

Lemma NewPubSubForwarder_needs_a_project_witness :
  PubSub.NewPubSubForwarder variable_empty "events" =
    inl (PubSub.Errorf "failed to retrieve project ID: %w"
           "could not find default credentials"%string) ∧
  PubSub.NewPubSubForwarder
    (PubSub.with_services variable_empty (λ _, inl "no protocol"%string)
       (λ _, inl "no client"%string)) "events" =
    inl (PubSub.Errorf "failed to retrieve project ID: %w"
           "could not find default credentials"%string).
Proof.
  apply (NewPubSubForwarder_needs_a_project variable_empty "events");
    reflexivity.
Defined.

(** X23: NewNatsFromEnv gives up after four attempts: when the four calls of
    [nats.Connect], made with the url and the token of the environment
    (empty when unset), all fail, it has slept 8 seconds in all and ends in
    [logger.Fatal] with the url and the error of the fourth call. *)
Theorem NewNatsFromEnv_gives_up_after_four {Conn EConn Err : Type}
    (connect : string → string → nat → Err + Conn)
    (encode : option Conn → string → Err + EConn)
    (env : gmap string string) (e : Err) :
  Dial.all_fail (connect (Elapse.Getenv env "ELAPSE_NATS_URL")
                         (Elapse.Getenv env "ELAPSE_NATS_TOKEN")) 4 = true →
  connect (Elapse.Getenv env "ELAPSE_NATS_URL")
          (Elapse.Getenv env "ELAPSE_NATS_TOKEN") 3 = inl e →
  Elapse.NewNatsFromEnv connect encode env =
    (Dial.mkEffort 8 4, Elapse.Fatal (Elapse.Getenv env "ELAPSE_NATS_URL") e).
Proof.
  intros Hfail Hlast. unfold Elapse.NewNatsFromEnv, Elapse.NewNats.
  rewrite (connect_loop_failure _ Elapse.intervals _ _ _ e); try done.
  intros j Hj. by eapply all_fail_spec.
Qed.

Lemma NewNatsFromEnv_gives_up_after_four_witness :
  Elapse.NewNatsFromEnv refuses_all encode_any url_only =
    (Dial.mkEffort 8 4,
     Elapse.Fatal (Elapse.Getenv url_only "ELAPSE_NATS_URL")
                  "nats://localhost:4222 refused at last"%string).
Proof.
  apply (NewNatsFromEnv_gives_up_after_four refuses_all encode_any url_only);
    vm_compute; reflexivity.
Defined.

(** X24: the encoder of NewNatsFromEnv is ELAPSE_NATS_ENC when the variable
    is set, be it to the empty string, and json when it is not: unsetting
    the variable and setting it to "json" come to the same, setting it to
    the empty string passes the empty string on, and no variable other than
    the three that are read has any influence. *)
Theorem NewNatsFromEnv_reads_three_variables {Conn EConn Err : Type}
    (connect : string → string → nat → Err + Conn)
    (encode : option Conn → string → Err + EConn)
    (env : gmap string string) (key value : string) :
  key ≠ "ELAPSE_NATS_URL"%string → key ≠ "ELAPSE_NATS_TOKEN"%string →
  key ≠ "ELAPSE_NATS_ENC"%string →
  Elapse.NewNatsFromEnv connect encode (<[key := value]> env) =
    Elapse.NewNatsFromEnv connect encode env ∧
  Elapse.NewNatsFromEnv connect encode (delete "ELAPSE_NATS_ENC"%string env) =
    Elapse.NewNatsFromEnv connect encode (<["ELAPSE_NATS_ENC"%string := "json"%string]> env) ∧
  Elapse.NewNatsFromEnv connect encode (<["ELAPSE_NATS_ENC"%string := ""%string]> env) =
    Elapse.NewNats connect encode (Elapse.Getenv env "ELAPSE_NATS_URL")
                   (Elapse.Getenv env "ELAPSE_NATS_TOKEN") "".
Proof.
  intros H1 H2 H3. unfold Elapse.NewNatsFromEnv, Elapse.Getenv.
  split_and!.
  - by rewrite !lookup_insert_ne.
  - rewrite lookup_delete_eq, lookup_insert_eq.
    by rewrite !lookup_delete_ne, !lookup_insert_ne.
  - rewrite lookup_insert_eq. by rewrite !lookup_insert_ne.
Qed.

Lemma NewNatsFromEnv_reads_three_variables_witness :
  Elapse.NewNatsFromEnv refuses_all encode_any (<["HOME"%string := "/root"%string]> url_only) =
    Elapse.NewNatsFromEnv refuses_all encode_any url_only ∧
  Elapse.NewNatsFromEnv refuses_all encode_any (delete "ELAPSE_NATS_ENC"%string url_only) =
    Elapse.NewNatsFromEnv refuses_all encode_any
      (<["ELAPSE_NATS_ENC"%string := "json"%string]> url_only) ∧
  Elapse.NewNatsFromEnv refuses_all encode_any
      (<["ELAPSE_NATS_ENC"%string := ""%string]> url_only) =
    Elapse.NewNats refuses_all encode_any (Elapse.Getenv url_only "ELAPSE_NATS_URL")
                   (Elapse.Getenv url_only "ELAPSE_NATS_TOKEN") "".
Proof.
  apply (NewNatsFromEnv_reads_three_variables refuses_all encode_any url_only
           "HOME" "/root"); discriminate.
Defined.
